(** * tosdb_data_stream: a shallow embedding of [include/data_stream.hpp]

    The header defines a bounded "latest window" stream: a [std::deque] of
    fixed length [_qBound] whose front is the newest element, a count
    [_qCount] of the slots that were really pushed, and a marker
    [*_mrkCount] kept in a heap cell that every read resets.

    The embedding follows the C++ text:
    - [size_t], [int] and [unsigned int] are [Z] with the wrap-around
      written out ([to_size_t], [to_int], [to_uint]);
    - the two [new] expressions of the constructors allocate cells in an
      explicit heap ([gmap loc cell]); an object holds the addresses, so two
      objects may alias a cell;
    - every member function is a computation in a small monad that threads
      the heap and ends in a value, a thrown exception or undefined
      behaviour (an access the C++ standard gives no meaning to). *)

From Stdlib Require Import ZArith Lia.
From Stdlib Require Import String.
From stdpp Require Import base numbers option list gmap strings pretty.

Local Open Scope Z_scope.

(** ** Machine integers (LLP64 / LP64: 64-bit [size_t], 32-bit [int]) *)

Definition SIZE_MAX : Z := 2 ^ 64 - 1.
Definition INT_MAX : Z := 2 ^ 31 - 1.
Definition PTRDIFF_MAX : Z := 2 ^ 63 - 1.

(** Conversion of an integer value to [size_t]: reduction modulo 2^64. *)
Definition to_size_t (z : Z) : Z := z mod 2 ^ 64.

(** Conversion to [unsigned int]: reduction modulo 2^32. *)
Definition to_uint (z : Z) : Z := z mod 2 ^ 32.

(** Conversion to [int]: the two's complement value of the low 32 bits. *)
Definition to_int (z : Z) : Z := (z + 2 ^ 31) mod 2 ^ 32 - 2 ^ 31.

(** [static const size_t MAX_BOUND_SIZE = INT_MAX;] *)
Definition MAX_BOUND_SIZE : Z := INT_MAX.

(** ** Exceptions and outcomes *)

Inductive error : Type :=
  | type_error
  | size_violation (boundSize dequeSize : Z)
  | unset_marker
  | out_of_range (size beg end_ : Z)
  | invalid_argument
  | std_out_of_range.          (* thrown by [std::deque::at] *)

Inductive outcome (A : Type) : Type :=
  | Ok (a : A)
  | Throw (e : error)
  | Undefined.
Arguments Ok {A} a.
Arguments Throw {A} e.
Arguments Undefined {A}.

(** ** The heap: the cells made by [new size_t(-1)] and
    [new std::recursive_mutex] *)

Definition loc : Type := positive.

(** A mutex cell carries no state here: the embedding is sequential, and
    every acquire of the source ([lock_guard], or [try_lock]/[lock] with the
    [unlock] that ends [_push]) is released before the member returns. *)
Inductive cell : Type :=
  | MutexCell
  | SizeCell (v : Z).

(** Computations: heap in, outcome and heap out.  The heap is returned with
    a thrown exception too, since a write done before the [throw] stays. *)
Definition M (A : Type) : Type := gmap loc cell -> outcome A * gmap loc cell.

Definition ret {A} (a : A) : M A := fun h => (Ok a, h).

Definition bind {A B} (m : M A) (f : A -> M B) : M B :=
  fun h =>
    match m h with
    | (Ok a, h') => f a h'
    | (Throw e, h') => (Throw e, h')
    | (Undefined, h') => (Undefined, h')
    end.

Definition throw {A} (e : error) : M A := fun h => (Throw e, h).
Definition undefined {A} : M A := fun h => (Undefined, h).

Definition lift {A} (o : outcome A) : M A := fun h => (o, h).

Notation "x <- c1 ;; c2" := (bind c1 (fun x => c2))
  (at level 100, c1 at next level, right associativity).
Notation "c1 ;;; c2" := (bind c1 (fun _ => c2))
  (at level 100, right associativity).

(** [new T(v)]: a cell at an address not in use. *)
Definition alloc (c : cell) : M loc :=
  fun h => let l := fresh (dom h) in (Ok l, <[l := c]> h).

(** [*p] for [size_t* p]; reading through a pointer to no [size_t] object
    is undefined. *)
Definition load (p : loc) : M Z :=
  fun h =>
    match h !! p with
    | Some (SizeCell v) => (Ok v, h)
    | _ => (Undefined, h)
    end.

(** [*p = v] for [size_t* p]: [v] is converted to [size_t]. *)
Definition store (p : loc) (v : Z) : M unit :=
  fun h =>
    match h !! p with
    | Some (SizeCell _) => (Ok tt, <[p := SizeCell (to_size_t v)]> h)
    | _ => (Undefined, h)
    end.

(** [delete p]: deleting what is not (or no longer) allocated is
    undefined. *)
Definition free (p : loc) : M unit :=
  fun h =>
    match h !! p with
    | Some _ => (Ok tt, delete p h)
    | None => (Undefined, h)
    end.

(** ** Element types *)

(** [T()]: the value-initialised element that a sized [std::deque]
    constructor, [resize] and a sized [std::vector] fill with. *)
Class ValueInit (T : Type) := value_init : T.

(** [GenTy( x )] for an element type that passes [GenTy::Type_Check]. *)
Class Generic (GenTy Ty : Type) := generic_type : Ty -> GenTy.

(** [g.as_string()] of the generic wrapper. *)
Class AsString (GenTy : Type) := as_string : GenTy -> string.

(** ** [std::deque] operations used by the header *)

Section Deque.
Context {T : Type}.

(** [d.push_front(x); d.pop_back();] *)
Definition push_front_pop_back (x : T) (d : list T) : list T :=
  removelast (x :: d).

(** [d.resize(n)]: keep the first [n] elements, or append
    value-initialised ones up to length [n]. *)
Definition resize `{ValueInit T} (n : Z) (d : list T) : list T :=
  take (Z.to_nat n) d ++ replicate (Z.to_nat n - length d)%nat value_init.

(** [d.front()]: undefined on an empty deque. *)
Definition front (d : list T) : outcome T :=
  match d with
  | [] => Undefined
  | x :: _ => Ok x
  end.

(** [d.at(i)]: throws [std::out_of_range] outside the deque. *)
Definition at_ (d : list T) (i : Z) : outcome T :=
  if (i <? 0) || (Z.of_nat (length d) <=? i) then Throw std_out_of_range
  else match d !! Z.to_nat i with
       | Some x => Ok x
       | None => Throw std_out_of_range
       end.

(** [std::copy( d.cbegin() + b, d.cbegin() + e, dest )] for [b < e]:
    the elements [d[b] .. d[e-1]] overwrite [dest[0] ..]; forming an
    iterator past the end of [d], or writing past the end of the
    buffer, is undefined. *)
Definition copy_range (d : list T) (b e : Z) (dest : list T) : outcome (list T) :=
  if (Z.of_nat (length d) <? e) || (Z.of_nat (length dest) <? e - b)
  then Undefined
  else let src := take (Z.to_nat (e - b)) (drop (Z.to_nat b) d) in
       Ok (src ++ drop (length src) dest).

(** [*dest = x]: undefined when the buffer has no element. *)
Definition write_first (x : T) (dest : list T) : outcome (list T) :=
  match dest with
  | [] => Undefined
  | _ :: rest => Ok (x :: rest)
  end.
End Deque.

(** [strlen( s.c_str() )]: a [std::string] may hold NUL characters, the C
    string read through [c_str()] ends at the first of them. *)
Fixpoint strlen (s : string) : nat :=
  match s with
  | EmptyString => 0
  | String c rest => if Ascii.eqb c Ascii.zero then 0 else S (strlen rest)
  end.

(** [strncpy_s( dest[i], destsz, src, count )] of the Microsoft C runtime,
    on the row [dest[i]] ([None] when [i] is past the row pointers) and
    the C string [src = genS.c_str()]: the first
    [d = min(count, strlen(src))] characters of [src] and a terminating
    NUL are stored when they fit in [destsz] bytes; the row is modelled
    by the C string it then holds.  A zero or too small [destsz] calls
    the invalid-parameter handler, which ends the program by default:
    [Undefined] stands for that too. *)
Definition strncpy_s (row : option string) (destsz : Z) (src : string)
    (count : Z) : outcome string :=
  match row with
  | None => Undefined
  | Some _ =>
      let d := Z.min count (Z.of_nat (strlen src)) in
      if (destsz <=? 0) || (destsz <=? d) then Undefined
      else Ok (substring 0 (Z.to_nat d) src)
  end.

(** ** [Object< Ty, SecTy, GenTy, false >]: the stream without a secondary deque *)

Section Stream.
Context {Ty SecTy GenTy : Type}.
Context {VTy : ValueInit Ty} {VSec : ValueInit SecTy} {Gen : Generic GenTy Ty}.
Context {Str : AsString GenTy}.

(** The data members, in the order the class declares (and so
    initialises) them. *)
Record Object : Type := {
  _mtx : loc;                    (* std::recursive_mutex* const *)
  _push_has_priority : bool;     (* volatile bool *)
  _qCount : Z;                   (* size_t *)
  _qBound : Z;                   (* size_t *)
  _mrkCount : loc;               (* size_t* *)
  _myImplObj : list Ty           (* std::deque< Ty > *)
}.

(** [Object( size_t sz )] *)
Definition Object_new (sz : Z) : M Object :=
  mtx <- alloc MutexCell ;;
  mrk <- alloc (SizeCell (to_size_t (-1))) ;;
  ret {| _mtx := mtx;
         _push_has_priority := true;
         _qCount := 0;
         _qBound := Z.min sz MAX_BOUND_SIZE;
         _mrkCount := mrk;
         _myImplObj :=
           replicate (Z.to_nat (Z.min sz MAX_BOUND_SIZE)) value_init |}.

(** [Object( const _myTy& stream )]: the deque is copied, a mutex is
    allocated, and [_mrkCount( stream._mrkCount )] copies the pointer. *)
Definition Object_copy (stream : Object) : M Object :=
  mtx <- alloc MutexCell ;;
  ret {| _mtx := mtx;
         _push_has_priority := true;
         _qCount := _qCount stream;
         _qBound := _qBound stream;
         _mrkCount := _mrkCount stream;
         _myImplObj := _myImplObj stream |}.

(** [~Object()] *)
Definition Object_destroy (s : Object) : M unit :=
  free (_mtx s) ;;; free (_mrkCount s).

(** [_push( const Ty _item )].  With no other thread, [try_lock]
    succeeds, so [_push_has_priority] becomes [true]. *)
Definition _push (s : Object) (_item : Ty) : M Object :=
  let impl := push_front_pop_back _item (_myImplObj s) in
  let cnt := if _qCount s <? _qBound s then to_size_t (_qCount s + 1)
             else _qCount s in
  m <- load (_mrkCount s) ;;
  (if m <? to_size_t (_qBound s - 1) then store (_mrkCount s) (m + 1)
   else ret tt) ;;;
  ret {| _mtx := _mtx s;
         _push_has_priority := true;
         _qCount := cnt;
         _qBound := _qBound s;
         _mrkCount := _mrkCount s;
         _myImplObj := impl |}.

(** [push( const Ty val, secondary_type&& sec )]: [sec] is dropped. *)
Definition push (s : Object) (val : Ty) (sec : SecTy) : M Object :=
  _push s val.

(** Pushing a sequence of values, first to last. *)
Fixpoint push_all (s : Object) (vals : list Ty) : M Object :=
  match vals with
  | [] => ret s
  | v :: rest => s' <- push s v value_init ;; push_all s' rest
  end.

Definition empty (s : Object) : bool :=
  match _myImplObj s with [] => true | _ => false end.

Definition size (s : Object) : Z := _qCount s.

(** [bound_size() const] *)
Definition bound_size_get (s : Object) : Z := _qBound s.

(** [bound_size( size_t sz )] *)
Definition bound_size (s : Object) (sz : Z) : M (Object * Z) :=
  let sz := Z.min sz MAX_BOUND_SIZE in
  ret ({| _mtx := _mtx s;
          _push_has_priority := _push_has_priority s;
          _qCount := if sz <? _qCount s then sz else _qCount s;
          _qBound := sz;
          _mrkCount := _mrkCount s;
          _myImplObj := resize sz (_myImplObj s) |}, sz).

(** [_check_adj( int& end, int& beg, impl )]: the adjusted [(end, beg)]. *)
Definition _check_adj {T} (s : Object) (end_ beg : Z) (impl : list T)
  : outcome (Z * Z) :=
  let sz := to_int (Z.of_nat (length impl)) in
  if negb (_qBound s =? to_size_t sz)
  then Throw (size_violation (_qBound s) (to_size_t sz))
  else
    let end_ := if end_ <? 0 then to_int (end_ + sz) else end_ in
    let beg := if beg <? 0 then to_int (beg + sz) else beg in
    if (sz <=? beg) || (sz <=? end_) || (beg <? 0) || (end_ <? 0)
    then Throw (out_of_range sz beg end_)
    else if end_ <? beg then Throw invalid_argument
    else Ok (end_, beg).

(** [_copy_to_ptr( impl, dest, sz, unsigned end, unsigned beg )] *)
Definition _copy_to_ptr {T} (s : Object) (impl : list T) (dest : list T)
    (sz end_ beg : Z) : outcome (list T) :=
  let end_ := to_uint end_ in
  let beg := to_uint beg in
  let e := Z.min (to_size_t (sz + beg))
                 (Z.min (to_uint (end_ + 1)) (_qCount s)) in
  if Z.of_nat (length impl) <? beg then Undefined
  else if beg <? e then copy_range impl beg e dest
  else Ok dest.

(** The single-element branch of [copy]:
    [*dest = beg ? impl.at(beg) : impl.front();] *)
Definition copy_single {T} (impl : list T) (dest : list T) (beg : Z)
  : outcome (list T) :=
  match (if beg =? 0 then front impl else at_ impl beg) with
  | Ok x => write_first x dest
  | Throw e => Throw e
  | Undefined => Undefined
  end.

(** [copy( Ty* dest, size_t sz, int end, int beg, secondary_type* sec )];
    [dest] is [None] for a null pointer, else the buffer it points to.
    The result is the buffer after the call. *)
Definition copy (s : Object) (dest : option (list Ty)) (sz end_ beg : Z)
  : M (list Ty) :=
  match dest with
  | None => throw invalid_argument
  | Some buf =>
      p <- lift (_check_adj s end_ beg (_myImplObj s)) ;;
      let '(end_, beg) := p in
      buf' <- lift (if end_ =? beg
                    then copy_single (_myImplObj s) buf beg
                    else _copy_to_ptr s (_myImplObj s) buf sz end_ beg) ;;
      store (_mrkCount s) (to_int (beg - 1)) ;;;
      ret buf'
  end.

(** [copy_using_atomic_marker( Ty* dest, size_t sz, int beg, sec )].
    [*_mrkCount < 0] compares two [size_t] values; [*_mrkCount] is then
    passed for the [int end] of [copy]. *)
Definition copy_using_atomic_marker (s : Object) (dest : option (list Ty))
    (sz beg : Z) : M (list Ty) :=
  m <- load (_mrkCount s) ;;
  if m <? to_size_t 0 then throw unset_marker
  else copy s dest sz (to_int m) beg.

(** [operator[]( int indx ) const] *)
Definition operator_subscript (s : Object) (indx : Z) : M GenTy :=
  if indx =? 0 then
    store (_mrkCount s) (-1) ;;;
    x <- lift (front (_myImplObj s)) ;;
    ret (generic_type x)
  else
    p <- lift (_check_adj s indx 0 (_myImplObj s)) ;;
    let indx := fst p in
    store (_mrkCount s) (to_int (indx - 1)) ;;;
    x <- lift (at_ (_myImplObj s) indx) ;;
    ret (generic_type x).

(** [both( int indx ) const] *)
Definition both (s : Object) (indx : Z) : M (GenTy * SecTy) :=
  g <- operator_subscript s indx ;;
  ret (g, value_init).

(** [vector( int end, int beg ) const] *)
Definition vector (s : Object) (end_ beg : Z) : M (list GenTy) :=
  p <- lift (_check_adj s end_ beg (_myImplObj s)) ;;
  let '(end_, beg) := p in
  let e := Z.min (to_size_t (to_int (end_ + 1))) (_qCount s) in
  tmp <- lift (if Z.of_nat (length (_myImplObj s)) <? e then Undefined
               else if beg <? e
                    then Ok (generic_type <$>
                               take (Z.to_nat (e - beg))
                                    (drop (Z.to_nat beg) (_myImplObj s)))
                    else Ok []) ;;
  store (_mrkCount s) (to_int (beg - 1)) ;;;
  ret tmp.

(** [secondary_vector( int end, int beg ) const]: a vector of
    [min( ++end - beg, _qCount )] value-initialised elements. *)
Definition secondary_vector (s : Object) (end_ beg : Z) : M (list SecTy) :=
  p <- lift (_check_adj s end_ beg (_myImplObj s)) ;;
  let '(end_, beg) := p in
  let n := Z.min (to_size_t (to_int (to_int (end_ + 1) - beg))) (_qCount s) in
  ret (replicate (Z.to_nat n) value_init).

(** ** [Object< Ty, SecTy, GenTy, true >]: the stream with a secondary
    deque, derived from the one without *)

Record PairedObject : Type := {
  _myBase : Object;
  _myImplSecObj : list SecTy     (* std::deque< SecTy > *)
}.

(** [Object( size_t sz )] of the paired class: the base first, then the
    secondary deque. *)
Definition PairedObject_new (sz : Z) : M PairedObject :=
  b <- Object_new (Z.min sz MAX_BOUND_SIZE) ;;
  ret {| _myBase := b;
         _myImplSecObj :=
           replicate (Z.to_nat (Z.min sz MAX_BOUND_SIZE)) value_init |}.

(** [Object( const _myTy& stream )] of the paired class. *)
Definition PairedObject_copy (stream : PairedObject) : M PairedObject :=
  b <- Object_copy (_myBase stream) ;;
  ret {| _myBase := b; _myImplSecObj := _myImplSecObj stream |}.

(** [_push( const Ty _item, const secondary_type&& sec )] *)
Definition _push_paired (s : PairedObject) (_item : Ty) (sec : SecTy)
  : M PairedObject :=
  let b := _myBase s in
  let impl := push_front_pop_back _item (_myImplObj b) in
  let implSec := push_front_pop_back sec (_myImplSecObj s) in
  let cnt := if _qCount b <? _qBound b then to_size_t (_qCount b + 1)
             else _qCount b in
  m <- load (_mrkCount b) ;;
  (if m <? to_size_t (_qBound b - 1) then store (_mrkCount b) (m + 1)
   else ret tt) ;;;
  ret {| _myBase := {| _mtx := _mtx b;
                       _push_has_priority := true;
                       _qCount := cnt;
                       _qBound := _qBound b;
                       _mrkCount := _mrkCount b;
                       _myImplObj := impl |};
         _myImplSecObj := implSec |}.

(** [push( const Ty val, secondary_type&& sec )] of the paired class. *)
Definition push_paired (s : PairedObject) (val : Ty) (sec : SecTy)
  : M PairedObject :=
  _push_paired s val sec.

Fixpoint push_all_paired (s : PairedObject) (vals : list (Ty * SecTy))
  : M PairedObject :=
  match vals with
  | [] => ret s
  | (v, t) :: rest => s' <- push_paired s v t ;; push_all_paired s' rest
  end.

(** [bound_size( size_t sz )] of the paired class. *)
Definition bound_size_paired (s : PairedObject) (sz : Z)
  : M (PairedObject * Z) :=
  let sz := Z.min sz MAX_BOUND_SIZE in
  let implSec := resize sz (_myImplSecObj s) in
  r <- bound_size (_myBase s) sz ;;
  ret ({| _myBase := fst r; _myImplSecObj := implSec |}, snd r).

(** [both( int indx ) const] of the paired class. *)
Definition both_paired (s : PairedObject) (indx : Z) : M (GenTy * SecTy) :=
  gen <- operator_subscript (_myBase s) indx ;;
  if indx =? 0 then
    t <- lift (front (_myImplSecObj s)) ;;
    ret (gen, t)
  else
    p <- lift (_check_adj (_myBase s) indx 0 (_myImplSecObj s)) ;;
    t <- lift (at_ (_myImplSecObj s) (fst p)) ;;
    ret (gen, t).

(** [secondary( secondary_type* dest, int indx ) const]: the value
    written to [*dest]. *)
Definition secondary (s : PairedObject) (indx : Z) : M SecTy :=
  p <- lift (_check_adj (_myBase s) indx 0 (_myImplSecObj s)) ;;
  let indx := fst p in
  t <- lift (if indx =? 0 then front (_myImplSecObj s)
             else at_ (_myImplSecObj s) indx) ;;
  store (_mrkCount (_myBase s)) (to_int (indx - 1)) ;;;
  ret t.

(** [secondary_vector( int end, int beg ) const] of the paired class. *)
Definition secondary_vector_paired (s : PairedObject) (end_ beg : Z)
  : M (list SecTy) :=
  p <- lift (_check_adj (_myBase s) end_ beg (_myImplSecObj s)) ;;
  let '(end_, beg) := p in
  let e := Z.min (to_size_t (to_int (end_ + 1))) (_qCount (_myBase s)) in
  tmp <- lift (if Z.of_nat (length (_myImplSecObj s)) <? e then Undefined
               else if 0 <? e - beg
                    then Ok (take (Z.to_nat (e - beg))
                                  (drop (Z.to_nat beg) (_myImplSecObj s)))
                    else Ok []) ;;
  store (_mrkCount (_myBase s)) (to_int (beg - 1)) ;;;
  ret tmp.

(** ** Comparison terms that follow the specification's words *)

(** [copy] with the range path ([_copy_to_ptr]) taken for every range,
    a one-element range included: what the specification requires the
    single-element branch of [copy] to be observably equal to. *)
Definition copy_range_path (s : Object) (dest : option (list Ty))
    (sz end_ beg : Z) : M (list Ty) :=
  match dest with
  | None => throw invalid_argument
  | Some buf =>
      p <- lift (_check_adj s end_ beg (_myImplObj s)) ;;
      let '(end_, beg) := p in
      buf' <- lift (_copy_to_ptr s (_myImplObj s) buf sz end_ beg) ;;
      store (_mrkCount s) (to_int (beg - 1)) ;;;
      ret buf'
  end.

(** The secondary view of a stream that is not paired, in the
    specification's words: a zero-initialised sequence whose length is
    the requested range [end - beg + 1]. *)
Definition secondary_vector_spec (end_ beg : Z) : list SecTy :=
  replicate (Z.to_nat (end_ - beg + 1)) value_init.

(** The marker as the specification reads it: [-1] for the unset value
    [size_t(-1)], else the stored index. *)
Definition marker_value (m : Z) : Z :=
  if m =? to_size_t (-1) then -1 else m.

(** [bound_size(newB)] in the specification's words: clamp [newB] to
    [[1, INT_MAX]], resize, lower the count to [newB], and clamp the
    marker to [newB - 1] when [newB < M + 1]. *)
Definition bound_size_spec (s : Object) (newB : Z) : M (Object * Z) :=
  let newB := Z.max 1 (Z.min newB INT_MAX) in
  m <- load (_mrkCount s) ;;
  (if newB <? marker_value m + 1 then store (_mrkCount s) (newB - 1)
   else ret tt) ;;;
  ret ({| _mtx := _mtx s;
          _push_has_priority := _push_has_priority s;
          _qCount := if newB <? _qCount s then newB else _qCount s;
          _qBound := newB;
          _mrkCount := _mrkCount s;
          _myImplObj := resize newB (_myImplObj s) |}, newB).

(** ** Observations and invariants *)

(** The value of the marker cell of [s] in heap [h]. *)
Definition marker (s : Object) (h : gmap loc cell) : option Z :=
  match h !! _mrkCount s with
  | Some (SizeCell v) => Some v
  | _ => None
  end.

(** The data-model invariant of a stream: the deque has [_qBound]
    elements, [_qCount <= _qBound <= INT_MAX], and the slots from
    [_qCount] on still hold the value-initialised filler. *)
Definition stream_inv (s : Object) : Prop :=
  Z.of_nat (length (_myImplObj s)) = _qBound s /\
  0 <= _qCount s <= _qBound s /\
  _qBound s <= INT_MAX /\
  forall i x, (Z.to_nat (_qCount s) <= i)%nat ->
              _myImplObj s !! i = Some x -> x = value_init.

(** The marker cell of [s] is allocated and holds a [size_t] value. *)
Definition marker_ok (s : Object) (h : gmap loc cell) : Prop :=
  exists m, h !! _mrkCount s = Some (SizeCell m) /\ 0 <= m <= SIZE_MAX.

(** The loop of [copy( char** dest, destSz, strSz, end, beg )]:
    [src] is what lies between [bIter] and [eIter], [i] the row index. *)
Fixpoint copy_rows (destSz strSz : Z) (i : Z) (src : list Ty)
    (dest : list string) : outcome (list string) :=
  match src with
  | [] => Ok dest
  | x :: rest =>
      if i <? destSz then
        let genS := as_string (generic_type x) in
        match strncpy_s (dest !! Z.to_nat i) strSz genS
                (Z.min (to_size_t (strSz - 1))
                       (Z.of_nat (String.length genS))) with
        | Ok row =>
            copy_rows destSz strSz (to_size_t (i + 1)) rest
                      (<[Z.to_nat i := row]> dest)
        | Throw e => Throw e
        | Undefined => Undefined
        end
      else Ok dest
  end.

(** [copy( char** dest, size_t destSz, size_t strSz, int end, int beg,
    secondary_type* sec )]: [dest] is [None] for a null pointer, else the
    rows it points to; the result is the rows after the call. *)
Definition copy_strings (s : Object) (dest : option (list string))
    (destSz strSz end_ beg : Z) : M (list string) :=
  match dest with
  | None => throw invalid_argument
  | Some rows =>
      p <- lift (_check_adj s end_ beg (_myImplObj s)) ;;
      let '(end_, beg) := p in
      let e := Z.min (to_size_t (to_int (end_ + 1))) (_qCount s) in
      rows' <- lift (if Z.of_nat (length (_myImplObj s)) <? e then Undefined
                     else copy_rows destSz strSz 0
                            (take (Z.to_nat (e - beg))
                                  (drop (Z.to_nat beg) (_myImplObj s)))
                            rows) ;;
      store (_mrkCount s) (to_int (beg - 1)) ;;;
      ret rows'
  end.

(** The row [copy( char** ... )] leaves for an element when
    [strSz >= 1]: its generic string up to the first NUL, cut to
    [strSz - 1] characters. *)
Definition row_of (strSz : Z) (x : Ty) : string :=
  substring 0
    (Z.to_nat (Z.min (strSz - 1)
                     (Z.of_nat (strlen (as_string (generic_type x))))))
    (as_string (generic_type x)).

(** [copy( Ty* dest, size_t sz, int end, int beg, secondary_type* sec )]
    of the paired class: the base [copy], then, for a non-null [sec], the
    same range of the secondary deque.  The result is the two buffers
    after the call. *)
Definition copy_paired (s : PairedObject) (dest : option (list Ty))
    (sz end_ beg : Z) (sec : option (list SecTy))
  : M (list Ty * option (list SecTy)) :=
  match dest with
  | None => throw invalid_argument
  | Some _ =>
      buf' <- copy (_myBase s) dest sz end_ beg ;;
      match sec with
      | None => ret (buf', None)
      | Some sbuf =>
          p <- lift (_check_adj (_myBase s) end_ beg (_myImplSecObj s)) ;;
          let '(end_, beg) := p in
          sbuf' <- lift (if end_ =? beg
                         then copy_single (_myImplSecObj s) sbuf beg
                         else _copy_to_ptr (_myBase s) (_myImplSecObj s)
                                           sbuf sz end_ beg) ;;
          ret (buf', Some sbuf')
      end
  end.

(** The invariant of a paired stream: that of its base, and a secondary
    deque of the same length. *)
Definition paired_inv (s : PairedObject) : Prop :=
  stream_inv (_myBase s) /\
  Z.of_nat (length (_myImplSecObj s)) = _qBound (_myBase s).

End Stream.

Arguments Object : clear implicits.
Arguments PairedObject : clear implicits.

(** ** The typed push of [Interface]: the overloads made by the macros
    [virtual_void_push_2arg_DROP], [_BREAK] and [_LOOP] *)

(** The parameter types of the [push] overloads. *)
Inductive ctype : Type :=
  | c_float | c_double
  | c_uchar | c_ushort | c_uint | c_ulong | c_ulonglong
  | c_char | c_short | c_int | c_long | c_longlong
  | c_string | c_charptr.

Section Facade.
(** The values of [float] and [double] are kept abstract, with the
    conversion [(double)val] and [std::to_string( double )]. *)
Context {F D : Type}.
Context (float_to_double : F -> D) (double_to_string : D -> string).

(** An argument of [push]: one constructor per overload. *)
Inductive push_arg : Type :=
  | a_float (f : F)
  | a_double (d : D)
  | a_uchar (z : Z)
  | a_ushort (z : Z)
  | a_uint (z : Z)
  | a_ulong (z : Z)
  | a_ulonglong (z : Z)
  | a_char (z : Z)
  | a_short (z : Z)
  | a_int (z : Z)
  | a_long (z : Z)
  | a_longlong (z : Z)
  | a_string (str : string)
  | a_charptr (str : string).

Definition type_of (v : push_arg) : ctype :=
  match v with
  | a_float _ => c_float
  | a_double _ => c_double
  | a_uchar _ => c_uchar
  | a_ushort _ => c_ushort
  | a_uint _ => c_uint
  | a_ulong _ => c_ulong
  | a_ulonglong _ => c_ulonglong
  | a_char _ => c_char
  | a_short _ => c_short
  | a_int _ => c_int
  | a_long _ => c_long
  | a_longlong _ => c_longlong
  | a_string _ => c_string
  | a_charptr _ => c_charptr
  end.

Definition ctype_eqb (a b : ctype) : bool :=
  match a, b with
  | c_float, c_float | c_double, c_double
  | c_uchar, c_uchar | c_ushort, c_ushort | c_uint, c_uint
  | c_ulong, c_ulong | c_ulonglong, c_ulonglong
  | c_char, c_char | c_short, c_short | c_int, c_int
  | c_long, c_long | c_longlong, c_longlong
  | c_string, c_string | c_charptr, c_charptr => true
  | _, _ => false
  end.

(** What the body of one [Interface::push] overload does with
    [_count1]: the call it makes next, or the [type_error] it throws. *)
Inductive push_step : Type :=
  | Call (v : push_arg) (count1 : Z)
  | Fail (count1 : Z).

(** [if( _count1++ ){ _count1 = 0; throw } push( next )] of the [_LOOP]
    overloads; [_count1] is an [unsigned short]. *)
Definition loop_step (count1 : Z) (next : push_arg) : push_step :=
  if count1 =? 0 then Call next ((count1 + 1) mod 2 ^ 16)
  else Fail 0.

(** The bodies of the overloads of [Interface], by parameter type.  A
    [_DROP] converts to the next wider type of the same kind, which keeps
    the value; a [_BREAK] goes on with [std::to_string( val )]. *)
Definition Interface_push (v : push_arg) (count1 : Z) : push_step :=
  match v with
  | a_float f => Call (a_double (float_to_double f)) count1
  | a_double d => Call (a_string (double_to_string d)) count1
  | a_uchar z => Call (a_ushort z) count1
  | a_ushort z => Call (a_uint z) count1
  | a_uint z => Call (a_ulong z) count1
  | a_ulong z => Call (a_ulonglong z) count1
  | a_ulonglong z => Call (a_string (pretty z)) count1
  | a_char z => Call (a_short z) count1
  | a_short z => Call (a_int z) count1
  | a_int z => Call (a_long z) count1
  | a_long z => Call (a_longlong z) count1
  | a_longlong z => Call (a_string (pretty z)) count1
  | a_string str => loop_step count1 (a_charptr str)
  | a_charptr str => loop_step count1 (a_string str)
  end.

(** A call of [push] through the interface of a stream whose element
    type is [Ty]: the overload for [Ty] is the one [Object] overrides
    ([_count1 = 0; _push( val )], here [Ok val]: the value handed to
    [_push]); every other overload runs the body above.  [None] when
    [fuel] calls were not enough.  The second component is [_count1]
    after the call. *)
Fixpoint push_facade (fuel : nat) (Ty : ctype) (v : push_arg) (count1 : Z)
  : option (outcome push_arg * Z) :=
  match fuel with
  | O => None
  | S fuel' =>
      if ctype_eqb (type_of v) Ty then Some (Ok v, 0)
      else match Interface_push v count1 with
           | Call v' count1' => push_facade fuel' Ty v' count1'
           | Fail count1' => Some (Throw type_error, count1')
           end
  end.

(** The integer an argument of an integer type carries. *)
Definition integer_of (v : push_arg) : option Z :=
  match v with
  | a_uchar z | a_ushort z | a_uint z | a_ulong z | a_ulonglong z
  | a_char z | a_short z | a_int z | a_long z | a_longlong z => Some z
  | _ => None
  end.

Definition is_integer_type (t : ctype) : bool :=
  match t with
  | c_uchar | c_ushort | c_uint | c_ulong | c_ulonglong
  | c_char | c_short | c_int | c_long | c_longlong => true
  | _ => false
  end.

Definition is_numeric_type (t : ctype) : bool :=
  match t with
  | c_string | c_charptr => false
  | _ => true
  end.

Definition is_signed_type (t : ctype) : bool :=
  match t with
  | c_char | c_short | c_int | c_long | c_longlong => true
  | _ => false
  end.

Definition is_unsigned_type (t : ctype) : bool :=
  match t with
  | c_uchar | c_ushort | c_uint | c_ulong | c_ulonglong => true
  | _ => false
  end.

Definition is_float_type (t : ctype) : bool :=
  match t with
  | c_float | c_double => true
  | _ => false
  end.

(** Two numeric types of one kind: both signed integers, both unsigned
    integers, or both floating. *)
Definition same_kind (a b : ctype) : bool :=
  (is_signed_type a && is_signed_type b)
  || (is_unsigned_type a && is_unsigned_type b)
  || (is_float_type a && is_float_type b).

(** The position of a numeric type in the widenings of its kind. *)
Definition rank (t : ctype) : nat :=
  match t with
  | c_uchar | c_char | c_float => 0
  | c_ushort | c_short | c_double => 1
  | c_uint | c_int => 2
  | c_ulong | c_long => 3
  | c_ulonglong | c_longlong => 4
  | c_string | c_charptr => 5
  end.
End Facade.

(** ** Concrete element types for the worked examples: [Ty = long long],
    [SecTy = long long] (a time stamp), and a generic wrapper that keeps
    the value. *)

#[export] Instance Z_value_init : ValueInit Z := 0.
#[export] Instance Z_generic : Generic Z Z := fun x => x.
#[export] Instance Z_as_string : AsString Z := pretty.

(** Run a computation from the empty heap. *)
Definition run {A} (m : M A) : outcome A * gmap loc cell := m ∅.

(** The marker of the stream a computation returns, in its final heap. *)
Definition marker_after (m : M (Object Z)) : option Z :=
  match run m with
  | (Ok s, h) => marker s h
  | _ => None
  end.

(** Worked states: the heap every single-stream example ends in has the
    mutex at address 1 and the marker cell at address 2. *)
Definition heap_with_marker (m : Z) : gmap loc cell :=
  {[ 1%positive := MutexCell; 2%positive := SizeCell m ]}.

Definition stream_of (count bound : Z) (impl : list Z) : Object Z :=
  {| _mtx := 1%positive;
     _push_has_priority := true;
     _qCount := count;
     _qBound := bound;
     _mrkCount := 2%positive;
     _myImplObj := impl |}.

Definition paired_of (b : Object Z) (implSec : list Z) : PairedObject Z Z :=
  {| _myBase := b; _myImplSecObj := implSec |}.

(** A paired stream of capacity 5 after [push(1, 10)], [push(2, 20)],
    [push(3, 30)]. *)
Definition paired_partial : PairedObject Z Z :=
  paired_of (stream_of 3 5 [3; 2; 1; 0; 0]) [30; 20; 10; 0; 0].

(** * Properties *)

(** Settle every integer comparison of the goal that the context
    decides. *)
Ltac decide_cmp :=
  repeat match goal with
    | |- context [?a <? ?b] =>
        first [ rewrite (proj2 (Z.ltb_lt a b)) by lia
              | rewrite (proj2 (Z.ltb_ge a b)) by lia ]
    | |- context [?a <=? ?b] =>
        first [ rewrite (proj2 (Z.leb_le a b)) by lia
              | rewrite (proj2 (Z.leb_gt a b)) by lia ]
    | |- context [?a =? ?b] =>
        first [ rewrite (proj2 (Z.eqb_eq a b)) by lia
              | rewrite (proj2 (Z.eqb_neq a b)) by lia ]
    end;
  cbn [orb andb negb].

(** ** Integer conversions *)

Lemma to_size_t_id z : 0 <= z <= SIZE_MAX -> to_size_t z = z.
Proof. unfold to_size_t, SIZE_MAX. intros. apply Z.mod_small. lia. Qed.

Lemma to_size_t_range z : 0 <= to_size_t z <= SIZE_MAX.
Proof.
  unfold to_size_t, SIZE_MAX.
  pose proof (Z.mod_pos_bound z (2 ^ 64)). lia.
Qed.

Lemma to_size_t_minus_one : to_size_t (-1) = SIZE_MAX.
Proof. reflexivity. Qed.

Lemma to_uint_id z : 0 <= z < 2 ^ 32 -> to_uint z = z.
Proof. unfold to_uint. intros. apply Z.mod_small. lia. Qed.

Lemma to_int_id z : - 2 ^ 31 <= z <= INT_MAX -> to_int z = z.
Proof.
  unfold to_int, INT_MAX. intros.
  rewrite Z.mod_small; lia.
Qed.

(** ** The monad and the heap *)

Lemma bind_Ok {A B} (m : M A) (f : A -> M B) h a h' :
  m h = (Ok a, h') -> bind m f h = f a h'.
Proof. unfold bind. intros ->. reflexivity. Qed.

Lemma bind_Throw {A B} (m : M A) (f : A -> M B) h e h' :
  m h = (Throw e, h') -> bind m f h = (Throw e, h').
Proof. unfold bind. intros ->. reflexivity. Qed.

Lemma load_Ok h p m : h !! p = Some (SizeCell m) -> load p h = (Ok m, h).
Proof. unfold load. intros ->. reflexivity. Qed.

Lemma store_Ok h p m v :
  h !! p = Some (SizeCell m) ->
  store p v h = (Ok tt, <[p := SizeCell (to_size_t v)]> h).
Proof. unfold store. intros ->. reflexivity. Qed.

Lemma lift_run {A} (o : outcome A) h : lift o h = (o, h).
Proof. reflexivity. Qed.

Lemma alloc_fresh c h :
  exists l, alloc c h = (Ok l, <[l := c]> h) /\ h !! l = None.
Proof.
  exists (fresh (dom h)). split; [reflexivity|].
  apply not_elem_of_dom, is_fresh.
Qed.

(** ** The deque as a sliding window *)

Section DequeFacts.
Context {T : Type}.
Implicit Types (d : list T) (x : T).

Lemma push_front_pop_back_take x d :
  push_front_pop_back x d = take (length d) (x :: d).
Proof.
  unfold push_front_pop_back. revert x.
  induction d as [|y d IH]; intros x; [reflexivity|].
  change (removelast (x :: y :: d)) with (x :: removelast (y :: d)).
  rewrite IH. reflexivity.
Qed.

Lemma length_push_front_pop_back x d :
  length (push_front_pop_back x d) = length d.
Proof. rewrite push_front_pop_back_take, length_take. cbn. lia. Qed.

Lemma take_app_take (n : nat) (l k : list T) :
  take n (l ++ take n k) = take n (l ++ k).
Proof.
  rewrite !take_app, take_take. do 2 f_equal. lia.
Qed.

Lemma length_resize `{ValueInit T} (n : Z) d :
  length (resize n d) = Z.to_nat n.
Proof.
  unfold resize. rewrite length_app, length_take, length_replicate. lia.
Qed.

Lemma front_lookup d x : d !! 0%nat = Some x -> front d = Ok x.
Proof. destruct d; cbn; congruence. Qed.

Lemma at_lookup d (i : Z) x :
  0 <= i -> d !! Z.to_nat i = Some x -> at_ d i = Ok x.
Proof.
  intros Hi Hx. unfold at_.
  pose proof (lookup_lt_Some _ _ _ Hx) as Hlt.
  destruct (Z.ltb_spec i 0); [lia|].
  destruct (Z.leb_spec (Z.of_nat (length d)) i); [lia|].
  cbn. rewrite Hx. reflexivity.
Qed.
End DequeFacts.

Section StreamFacts.
Context {Ty SecTy GenTy : Type}.
Context {VTy : ValueInit Ty} {VSec : ValueInit SecTy} {Gen : Generic GenTy Ty}.

Implicit Types (s : Object Ty) (h : gmap loc cell).

Lemma marker_lookup s h m :
  h !! _mrkCount s = Some (SizeCell m) -> marker s h = Some m.
Proof. unfold marker. intros ->. reflexivity. Qed.

Lemma marker_insert s h v :
  marker s (<[_mrkCount s := SizeCell v]> h) = Some v.
Proof. unfold marker. rewrite lookup_insert_eq. reflexivity. Qed.

(** *** [_push] *)

(** What one [_push] does, for any stream whose marker cell is
    allocated: it always returns. *)
Lemma _push_run s x h m :
  h !! _mrkCount s = Some (SizeCell m) ->
  _push s x h =
    (Ok {| _mtx := _mtx s;
           _push_has_priority := true;
           _qCount := if _qCount s <? _qBound s
                      then to_size_t (_qCount s + 1) else _qCount s;
           _qBound := _qBound s;
           _mrkCount := _mrkCount s;
           _myImplObj := push_front_pop_back x (_myImplObj s) |},
     if m <? to_size_t (_qBound s - 1)
     then <[_mrkCount s := SizeCell (to_size_t (m + 1))]> h
     else h).
Proof.
  intros Hm. unfold _push.
  rewrite (bind_Ok _ _ _ _ _ (load_Ok _ _ _ Hm)).
  destruct (m <? to_size_t (_qBound s - 1)).
  - rewrite (bind_Ok _ _ _ _ _ (store_Ok _ _ _ _ Hm)). reflexivity.
  - reflexivity.
Qed.

(** The marker a [_push] leaves behind. *)
Lemma _push_marker s x h m :
  h !! _mrkCount s = Some (SizeCell m) ->
  exists s' h',
    _push s x h = (Ok s', h') /\
    marker s' h' =
      Some (if m <? to_size_t (_qBound s - 1) then to_size_t (m + 1) else m).
Proof.
  intros Hm. eexists _, _. split; [apply (_push_run _ _ _ _ Hm)|].
  destruct (m <? _); unfold marker; cbn.
  - rewrite lookup_insert_eq. reflexivity.
  - rewrite Hm. reflexivity.
Qed.

(** X1: from a valid marker [k], [0 <= k <= B-1], a push returns and
    moves the marker to [min (k+1) (B-1)]. *)
Theorem _push_marker_valid s x h k :
  h !! _mrkCount s = Some (SizeCell k) ->
  _qBound s <= SIZE_MAX ->
  0 <= k <= _qBound s - 1 ->
  exists s' h',
    _push s x h = (Ok s', h') /\
    marker s' h' = Some (Z.min (k + 1) (_qBound s - 1)).
Proof.
  intros Hm HB Hk.
  destruct (_push_marker s x h k Hm) as (s' & h' & Hrun & Hmk).
  exists s', h'. split; [exact Hrun|]. rewrite Hmk. f_equal.
  rewrite (to_size_t_id (_qBound s - 1)) by lia.
  destruct (Z.ltb_spec k (_qBound s - 1)).
  - rewrite to_size_t_id by lia. lia.
  - lia.
Qed.

(** C2 (what the code does): [*_mrkCount] is a [size_t], so the unset
    value [size_t(-1)] is the largest one and [*_mrkCount < _qBound - 1]
    is false for it: a push from the unset marker returns, changes no
    heap cell and leaves the marker unset; it does not set it to 0. *)
Theorem _push_marker_unset_stays s x h :
  h !! _mrkCount s = Some (SizeCell (to_size_t (-1))) ->
  exists s',
    _push s x h = (Ok s', h) /\
    marker s' h = Some (to_size_t (-1)).
Proof.
  intros Hm. rewrite (_push_run _ _ _ _ Hm).
  assert ((to_size_t (-1) <? to_size_t (_qBound s - 1)) = false) as ->.
  { apply Z.ltb_ge. rewrite to_size_t_minus_one. apply to_size_t_range. }
  eexists. split; [reflexivity|].
  unfold marker; cbn. rewrite Hm. reflexivity.
Qed.

(** *** Construction *)

Lemma Object_new_run (sz : Z) h :
  exists mtx mrk,
    mtx <> mrk /\ h !! mtx = None /\ h !! mrk = None /\
    Object_new (Ty:=Ty) sz h =
      (Ok {| _mtx := mtx;
             _push_has_priority := true;
             _qCount := 0;
             _qBound := Z.min sz MAX_BOUND_SIZE;
             _mrkCount := mrk;
             _myImplObj :=
               replicate (Z.to_nat (Z.min sz MAX_BOUND_SIZE)) value_init |},
       <[mrk := SizeCell (to_size_t (-1))]> (<[mtx := MutexCell]> h)).
Proof.
  destruct (alloc_fresh MutexCell h) as (mtx & Hmtx & Hfm).
  destruct (alloc_fresh (SizeCell (to_size_t (-1))) (<[mtx := MutexCell]> h))
    as (mrk & Hmrk & Hfk).
  exists mtx, mrk.
  assert (mtx <> mrk) as Hne.
  { intros ->. rewrite lookup_insert_eq in Hfk. discriminate. }
  rewrite lookup_insert_ne in Hfk by exact Hne.
  repeat split; try assumption.
  unfold Object_new.
  rewrite (bind_Ok _ _ _ _ _ Hmtx), (bind_Ok _ _ _ _ _ Hmrk).
  reflexivity.
Qed.

(** A stream just constructed satisfies the invariant (its capacity is
    the requested one clamped to [INT_MAX]). *)
Lemma Object_new_inv (sz : Z) h s h' :
  0 <= sz -> Object_new sz h = (Ok s, h') ->
  stream_inv s /\ _qCount s = 0 /\ _qBound s = Z.min sz INT_MAX /\
  h' !! _mrkCount s = Some (SizeCell (to_size_t (-1))).
Proof.
  intros Hsz Hrun.
  destruct (Object_new_run sz h) as (mtx & mrk & _ & _ & _ & Hrun').
  rewrite Hrun' in Hrun. injection Hrun as <- <-. cbn.
  unfold stream_inv, MAX_BOUND_SIZE, INT_MAX; cbn.
  rewrite length_replicate, lookup_insert_eq.
  repeat split; try lia.
  intros i x _ Hx. apply lookup_replicate_1 in Hx. tauto.
Qed.

(** *** Index normalisation *)

(** On a deque of [_qBound <= INT_MAX] elements, a range
    [0 <= beg <= end < _qBound] passes [_check_adj] unchanged. *)
Lemma _check_adj_in_range {T} s (impl : list T) (end_ beg : Z) :
  Z.of_nat (length impl) = _qBound s ->
  _qBound s <= INT_MAX ->
  0 <= beg <= end_ -> end_ < _qBound s ->
  _check_adj s end_ beg impl = Ok (end_, beg).
Proof.
  intros Hlen HB Hbe He. unfold _check_adj.
  rewrite Hlen, (to_int_id (_qBound s)) by (unfold INT_MAX in *; lia).
  rewrite (to_size_t_id (_qBound s)) by (unfold INT_MAX, SIZE_MAX in *; lia).
  cbn zeta. decide_cmp. reflexivity.
Qed.

(** A negative index is counted from the back: [-k] stands for
    [_qBound - k]. *)
Lemma _check_adj_negative_end {T} s (impl : list T) (end_ beg : Z) :
  Z.of_nat (length impl) = _qBound s ->
  _qBound s <= INT_MAX ->
  - _qBound s <= end_ < 0 -> 0 <= beg <= end_ + _qBound s ->
  _check_adj s end_ beg impl = Ok (end_ + _qBound s, beg).
Proof.
  intros Hlen HB He Hb. unfold _check_adj.
  rewrite Hlen, (to_int_id (_qBound s)) by (unfold INT_MAX in *; lia).
  rewrite (to_size_t_id (_qBound s)) by (unfold INT_MAX, SIZE_MAX in *; lia).
  rewrite (to_int_id (end_ + _qBound s)) by (unfold INT_MAX in *; lia).
  cbn zeta. decide_cmp. reflexivity.
Qed.

(** *** Sequences of pushes *)

(** Pushing [vals] into a stream always returns; the deque is then the
    window of its old length over the values pushed, newest first,
    followed by what it held before. *)
Lemma push_all_run vals : forall s h m,
  h !! _mrkCount s = Some (SizeCell m) ->
  Z.of_nat (length (_myImplObj s)) = _qBound s ->
  0 <= _qCount s <= _qBound s -> _qBound s <= SIZE_MAX ->
  exists s' h' m',
    push_all s vals h = (Ok s', h') /\
    _myImplObj s' =
      take (length (_myImplObj s)) (reverse vals ++ _myImplObj s) /\
    _qCount s' = Z.min (_qCount s + Z.of_nat (length vals)) (_qBound s) /\
    _qBound s' = _qBound s /\
    _mrkCount s' = _mrkCount s /\
    h' !! _mrkCount s = Some (SizeCell m').
Proof.
  induction vals as [|v rest IH]; intros s h m Hm Hlen HC HB.
  - exists s, h, m. cbn. rewrite take_ge by lia.
    repeat split; try assumption; lia.
  - cbn [push_all]. unfold push.
    pose proof (_push_run s v h m Hm) as Hrun.
    set (s1 := {| _mtx := _mtx s |}) in Hrun.
    set (h1 := if m <? _ then _ else _) in Hrun.
    assert (exists m1, h1 !! _mrkCount s1 = Some (SizeCell m1)) as [m1 Hm1].
    { subst h1 s1; cbn. destruct (m <? _); eauto.
      rewrite lookup_insert_eq. eauto. }
    assert (length (_myImplObj s1) = length (_myImplObj s)) as Hlen1.
    { subst s1; cbn. apply length_push_front_pop_back. }
    assert (_qCount s1 = Z.min (_qCount s + 1) (_qBound s)) as HC1.
    { subst s1; cbn. destruct (Z.ltb_spec (_qCount s) (_qBound s)).
      - rewrite to_size_t_id by lia. lia.
      - lia. }
    destruct (IH s1 h1 m1 Hm1) as (s' & h' & m' & Hrun' & HP & HC' & HB' & Hk & Hm').
    { rewrite Hlen1. exact Hlen. }
    { rewrite HC1. subst s1; cbn. lia. }
    { exact HB. }
    exists s', h', m'.
    rewrite (bind_Ok _ _ _ _ _ Hrun).
    split; [exact Hrun'|].
    split.
    { rewrite HP, Hlen1. subst s1; cbn [_myImplObj].
      rewrite push_front_pop_back_take, take_app_take.
      rewrite reverse_cons, <- app_assoc. reflexivity. }
    split.
    { rewrite HC', HC1. subst s1; cbn [_qBound].
      rewrite length_cons. lia. }
    repeat split; assumption.
Qed.

(** After [vals] are pushed into a new stream of capacity [B], slot [i]
    below the count holds the [(i+1)]-th most recent value. *)
Lemma push_all_new_run (B : Z) vals h :
  0 <= B <= SIZE_MAX ->
  exists s h1 m,
    (s0 <- Object_new (Ty:=Ty) B ;; push_all s0 vals) h = (Ok s, h1) /\
    h1 !! _mrkCount s = Some (SizeCell m) /\
    Z.of_nat (length (_myImplObj s)) = _qBound s /\
    _qBound s = Z.min B INT_MAX /\
    _qCount s = Z.min (Z.of_nat (length vals)) (_qBound s) /\
    forall i : nat, (Z.of_nat i < _qCount s) ->
                    _myImplObj s !! i = reverse vals !! i.
Proof.
  intros HB.
  destruct (Object_new_run B h) as (mtx & mrk & _ & _ & _ & Hnew).
  set (s0 := {| _mtx := mtx |}) in Hnew.
  set (h0 := <[mrk := _]> _) in Hnew.
  assert (h0 !! _mrkCount s0 = Some (SizeCell (to_size_t (-1)))) as Hm0.
  { subst h0 s0; cbn. apply lookup_insert_eq. }
  assert (Z.of_nat (length (_myImplObj s0)) = _qBound s0) as Hlen0.
  { subst s0; cbn. rewrite length_replicate.
    unfold MAX_BOUND_SIZE, INT_MAX. lia. }
  destruct (push_all_run vals s0 h0 _ Hm0 Hlen0)
    as (s & h1 & m & Hrun & HP & HC & HB' & Hk & Hm).
  { subst s0; cbn. unfold MAX_BOUND_SIZE, INT_MAX. lia. }
  { subst s0; cbn. unfold MAX_BOUND_SIZE, INT_MAX, SIZE_MAX in *. lia. }
  exists s, h1, m.
  rewrite (bind_Ok _ _ _ _ _ Hnew).
  split; [exact Hrun|].
  split; [rewrite Hk; exact Hm|].
  assert (length (_myImplObj s) = length (_myImplObj s0)) as HlenP.
  { rewrite HP, length_take, length_app. lia. }
  split; [rewrite HlenP, HB'; exact Hlen0|].
  split; [rewrite HB'; reflexivity|].
  split; [rewrite HC, HB'; subst s0; cbn; lia|].
  intros i Hi. rewrite HP.
  rewrite HC in Hi.
  rewrite lookup_take_lt by lia.
  apply lookup_app_l. rewrite length_reverse. subst s0; cbn in Hi. lia.
Qed.

(** *** Indexed reads *)

(** What [operator[]] does at index 0, for any stream whose deque has a
    front element: no index check, marker set to [size_t(-1)]. *)
Lemma operator_subscript_zero_run s h m x :
  h !! _mrkCount s = Some (SizeCell m) ->
  _myImplObj s !! 0%nat = Some x ->
  operator_subscript s 0 h =
    (Ok (generic_type x), <[_mrkCount s := SizeCell (to_size_t (-1))]> h).
Proof.
  intros Hm Hx. unfold operator_subscript. cbn [Z.eqb].
  rewrite (bind_Ok _ _ _ _ _ (store_Ok _ _ _ _ Hm)).
  unfold bind. rewrite lift_run, (front_lookup _ _ Hx). reflexivity.
Qed.

(** What [operator[]] does at an index [0 < i < _qBound]. *)
Lemma operator_subscript_pos_run s h m i x :
  h !! _mrkCount s = Some (SizeCell m) ->
  Z.of_nat (length (_myImplObj s)) = _qBound s ->
  _qBound s <= INT_MAX ->
  0 < i < _qBound s ->
  _myImplObj s !! Z.to_nat i = Some x ->
  operator_subscript s i h =
    (Ok (generic_type x), <[_mrkCount s := SizeCell (i - 1)]> h).
Proof.
  intros Hm Hlen HB Hi Hx. unfold operator_subscript.
  decide_cmp.
  rewrite (bind_Ok _ _ h (i, 0) h); cycle 1.
  { rewrite lift_run, _check_adj_in_range by (assumption || lia).
    reflexivity. }
  cbn [fst].
  rewrite to_int_id by (unfold INT_MAX in *; lia).
  rewrite (bind_Ok _ _ _ _ _ (store_Ok _ _ _ _ Hm)).
  unfold bind. rewrite lift_run, (at_lookup _ _ x) by (assumption || lia).
  rewrite to_size_t_id by (unfold INT_MAX, SIZE_MAX in *; lia).
  reflexivity.
Qed.

(** C3: after any sequence of pushes into a new stream, [operator[]] at
    an index [i] in [[0, size())] returns (the generic wrapping of) the
    [(i+1)]-th most recent pushed value, whatever the marker held before
    the call (the heap the pushes end in, or any heap in which the marker
    cell is allocated, such as the one an earlier read has left); it
    writes the marker cell and nothing else, leaving the marker at
    [size_t(-1)], i.e. -1, when [i = 0] and at [i - 1] when [i > 0]. *)
Theorem operator_subscript_recent (B : Z) (vals : list Ty) h :
  0 <= B <= SIZE_MAX ->
  exists s h1 m1,
    (s0 <- Object_new B ;; push_all s0 vals) h = (Ok s, h1) /\
    size s = Z.min (Z.of_nat (length vals)) (Z.min B INT_MAX) /\
    h1 !! _mrkCount s = Some (SizeCell m1) /\
    forall i h' m, 0 <= i < size s ->
      h' !! _mrkCount s = Some (SizeCell m) ->
      exists v h2,
        reverse vals !! Z.to_nat i = Some v /\
        operator_subscript s i h' = (Ok (generic_type v), h2) /\
        h2 = <[_mrkCount s := SizeCell (to_size_t (i - 1))]> h' /\
        (i = 0 -> marker s h2 = Some (to_size_t (-1))) /\
        (0 < i -> marker s h2 = Some (i - 1)).
Proof.
  intros HB.
  destruct (push_all_new_run B vals h HB)
    as (s & h1 & m1 & Hrun & Hm1 & Hlen & HBs & HC & HP).
  exists s, h1, m1. split; [exact Hrun|].
  unfold size. split; [rewrite HC, HBs; reflexivity|].
  split; [exact Hm1|].
  intros i h' m Hi Hm.
  assert (exists v, reverse vals !! Z.to_nat i = Some v) as [v Hv].
  { apply lookup_lt_is_Some_2. rewrite length_reverse. lia. }
  assert (_myImplObj s !! Z.to_nat i = Some v) as HPi.
  { rewrite HP by lia. exact Hv. }
  exists v.
  destruct (Z.eq_dec i 0) as [->|Hne].
  - eexists. split; [exact Hv|].
    split; [apply (operator_subscript_zero_run _ _ _ _ Hm HPi)|].
    split; [reflexivity|].
    split; [intros _; apply marker_insert|lia].
  - eexists. split; [exact Hv|].
    split.
    { apply (operator_subscript_pos_run _ _ _ _ _ Hm Hlen); try lia.
      exact HPi. }
    split.
    { rewrite to_size_t_id by (unfold INT_MAX, SIZE_MAX in *; lia).
      reflexivity. }
    split; [lia|intros _; apply marker_insert].
Qed.

(** *** Ranged copies *)

(** [_copy_to_ptr] on a range [0 <= beg <= end < _qBound] and a buffer of
    [sz] elements: the first [k = min sz (end-beg+1) (_qCount-beg)]
    elements of the buffer (none when [k <= 0]) are overwritten with
    [impl[beg] ..]. *)
Lemma _copy_to_ptr_run {T} s (impl buf : list T) (sz end_ beg : Z) :
  Z.of_nat (length impl) = _qBound s ->
  _qBound s <= INT_MAX ->
  0 <= _qCount s <= _qBound s ->
  0 <= beg <= end_ -> end_ < _qBound s ->
  Z.of_nat (length buf) = sz -> sz <= PTRDIFF_MAX ->
  let k := Z.to_nat (Z.min sz (Z.min (end_ - beg + 1) (_qCount s - beg))) in
  _copy_to_ptr s impl buf sz end_ beg =
    Ok (take k (drop (Z.to_nat beg) impl) ++ drop k buf).
Proof.
  intros Hlen HB HC Hbe He Hbuf Hsz k. unfold _copy_to_ptr.
  unfold INT_MAX, PTRDIFF_MAX in *.
  rewrite (to_uint_id end_), (to_uint_id beg) by lia.
  rewrite (to_uint_id (end_ + 1)) by lia.
  rewrite to_size_t_id by (unfold SIZE_MAX; lia).
  cbn zeta.
  set (e := Z.min (sz + beg) (Z.min (end_ + 1) (_qCount s))).
  assert (k = Z.to_nat (e - beg)) as Hk by (subst k e; lia).
  decide_cmp.
  destruct (Z.ltb_spec beg e) as [Hlt|Hge].
  - unfold copy_range. decide_cmp. cbn zeta.
    rewrite length_take, length_drop, <- Hk.
    do 3 f_equal. lia.
  - replace k with 0%nat by lia. reflexivity.
Qed.

(** C6: for a stream that satisfies the data-model invariant, a range
    [0 <= beg < end < B] and a buffer [dest] of [destLen] elements,
    [copy(dest, destLen, end, beg)] returns, has overwritten exactly the
    first [k = min(destLen, end-beg+1, C-beg)] elements of [dest] with
    [P[beg], P[beg+1], ...] (none when [k <= 0]), has left the rest of
    [dest] as it was, and the marker is [beg - 1] (as a [size_t]). *)
Theorem copy_range_writes (s : Object Ty) h (dest : list Ty)
    (destLen end_ beg : Z) :
  stream_inv s -> marker_ok s h ->
  0 <= beg -> beg < end_ -> end_ < _qBound s ->
  Z.of_nat (length dest) = destLen -> destLen <= PTRDIFF_MAX ->
  let k := Z.to_nat (Z.min destLen
                           (Z.min (end_ - beg + 1) (_qCount s - beg))) in
  exists dest' h',
    copy s (Some dest) destLen end_ beg h = (Ok dest', h') /\
    length dest' = length dest /\
    (forall j, (j < k)%nat ->
               dest' !! j = _myImplObj s !! (Z.to_nat beg + j)%nat) /\
    (forall j, (k <= j)%nat -> dest' !! j = dest !! j) /\
    marker s h' = Some (to_size_t (beg - 1)).
Proof.
  intros (Hlen & HC & HB & _) (m & Hm & _) Hb Hbe He Hbuf Hsz k.
  exists (take k (drop (Z.to_nat beg) (_myImplObj s)) ++ drop k dest).
  exists (<[_mrkCount s := SizeCell (to_size_t (beg - 1))]> h).
  assert (k <= length (drop (Z.to_nat beg) (_myImplObj s)))%nat as Hk1.
  { rewrite length_drop. subst k. lia. }
  assert (k <= length dest)%nat as Hk2 by (subst k; lia).
  split.
  { unfold copy.
    rewrite (bind_Ok _ _ h (end_, beg) h); cycle 1.
    { rewrite lift_run, _check_adj_in_range by (assumption || lia).
      reflexivity. }
    decide_cmp.
    rewrite (bind_Ok _ _ h
               (take k (drop (Z.to_nat beg) (_myImplObj s)) ++ drop k dest)
               h); cycle 1.
    { rewrite lift_run, _copy_to_ptr_run by (assumption || lia).
      reflexivity. }
    rewrite to_int_id by (unfold INT_MAX in *; lia).
    rewrite (bind_Ok _ _ _ _ _ (store_Ok _ _ _ _ Hm)). reflexivity. }
  split.
  { rewrite length_app, length_take, (length_drop dest). lia. }
  split.
  { intros j Hj. rewrite lookup_app_l by (rewrite length_take; lia).
    rewrite lookup_take_lt by lia. apply lookup_drop. }
  split.
  { intros j Hj. rewrite lookup_app_r by (rewrite length_take; lia).
    rewrite length_take, lookup_drop. f_equal. lia. }
  apply marker_insert.
Qed.

(** [copy] throws none but the exceptions of [_check_adj] and
    [deque::at], and [invalid_argument] for a null destination. *)
Lemma copy_never_unset_marker s dest sz end_ beg h :
  fst (copy s dest sz end_ beg h) <> Throw unset_marker.
Proof.
  unfold copy, bind, lift, throw, ret, store, _check_adj, copy_single,
    _copy_to_ptr, copy_range, front, at_, write_first.
  repeat case_match; simplify_eq; cbn; congruence.
Qed.

(** *** The marker-bounded copy *)

(** With a marker cell that holds a [size_t] value, the test
    [*_mrkCount < 0] is false: the call is [copy] with [end] the marker
    converted to [int]. *)
Lemma copy_using_atomic_marker_run s dest sz beg h m :
  h !! _mrkCount s = Some (SizeCell m) -> 0 <= m ->
  copy_using_atomic_marker s dest sz beg h = copy s dest sz (to_int m) beg h.
Proof.
  intros Hm Hpos. unfold copy_using_atomic_marker.
  rewrite (bind_Ok _ _ _ _ _ (load_Ok _ _ _ Hm)).
  change (to_size_t 0) with 0. decide_cmp. reflexivity.
Qed.

(** C1 (what the code does): with the marker unset, i.e. equal to
    [size_t(-1)], [copy_using_atomic_marker(dest, sz, beg)] does not
    throw [unset_marker]; it is [copy(dest, sz, end = -1, beg)], a copy
    up to the oldest slot. *)
Theorem copy_using_atomic_marker_unset s dest sz beg h :
  h !! _mrkCount s = Some (SizeCell (to_size_t (-1))) ->
  copy_using_atomic_marker s dest sz beg h = copy s dest sz (-1) beg h /\
  fst (copy_using_atomic_marker s dest sz beg h) <> Throw unset_marker.
Proof.
  intros Hm.
  assert (copy_using_atomic_marker s dest sz beg h
          = copy s dest sz (-1) beg h) as Heq.
  { rewrite (copy_using_atomic_marker_run _ _ _ _ _ _ Hm); [reflexivity|].
    apply to_size_t_range. }
  split; [exact Heq|]. rewrite Heq. apply copy_never_unset_marker.
Qed.

(** *** The single-element branch of [copy] against the range path *)

(** X2: on a one-element range [[b, b]] whose slot was pushed ([b < C])
    and a buffer of at least one element, the single-element branch of
    [copy] and the range path do the same: [P[b]] is written to
    [dest[0]] and the marker is left at [b - 1]. *)
Theorem copy_single_agrees s h (dest : list Ty) (destLen b : Z) :
  stream_inv s -> marker_ok s h ->
  0 <= b < _qCount s ->
  Z.of_nat (length dest) = destLen -> 1 <= destLen <= PTRDIFF_MAX ->
  copy s (Some dest) destLen b b h
  = copy_range_path s (Some dest) destLen b b h.
Proof.
  intros (Hlen & HC & HB & _) (m & Hm & _) Hb Hbuf Hsz.
  unfold copy, copy_range_path.
  rewrite !(bind_Ok _ _ h (b, b) h); cycle 1.
  { rewrite lift_run, _check_adj_in_range by (assumption || lia).
    reflexivity. }
  { rewrite lift_run, _check_adj_in_range by (assumption || lia).
    reflexivity. }
  rewrite Z.eqb_refl.
  rewrite _copy_to_ptr_run by (assumption || lia).
  replace (Z.to_nat (Z.min destLen (Z.min (b - b + 1) (_qCount s - b))))
    with 1%nat by lia.
  assert (exists x, _myImplObj s !! Z.to_nat b = Some x) as [x Hx].
  { apply lookup_lt_is_Some_2. lia. }
  assert (copy_single (_myImplObj s) dest b
          = Ok (take 1 (drop (Z.to_nat b) (_myImplObj s)) ++ drop 1 dest))
    as ->; [|reflexivity].
  unfold copy_single.
  assert ((if b =? 0 then front (_myImplObj s) else at_ (_myImplObj s) b)
          = Ok x) as ->.
  { destruct (Z.eqb_spec b 0) as [->|Hne].
    - apply front_lookup. exact Hx.
    - apply at_lookup; [lia|exact Hx]. }
  destruct dest as [|y rest]; [cbn in Hbuf; lia|]. cbn [write_first].
  rewrite (take_S_r _ 0 x) by (rewrite lookup_drop, Nat.add_0_r; exact Hx).
  reflexivity.
Qed.

(** *** The invariant is kept by the mutating members *)

(** X6: a push keeps the data-model invariant: the deque still has
    [_qBound] elements, [0 <= _qCount <= _qBound <= INT_MAX], and the
    slots from [_qCount] on still hold the filler. *)
Theorem _push_inv s x h s' h' :
  stream_inv s -> _push s x h = (Ok s', h') -> stream_inv s'.
Proof.
  intros (Hlen & HC & HB & Hfill) Hrun.
  unfold _push, bind in Hrun.
  destruct (load (_mrkCount s) h) as [[m| |] h0]; try discriminate.
  assert (_myImplObj s' = push_front_pop_back x (_myImplObj s) /\
          _qCount s' = (if _qCount s <? _qBound s
                        then to_size_t (_qCount s + 1) else _qCount s) /\
          _qBound s' = _qBound s) as (HP & HC' & HB').
  { destruct (m <? _); [destruct (store _ _ _) as [[[]| |] ?]|];
      cbn in Hrun; try discriminate; injection Hrun as <- _; cbn; auto. }
  unfold stream_inv. rewrite HP, HC', HB', length_push_front_pop_back.
  assert ((if _qCount s <? _qBound s then to_size_t (_qCount s + 1)
           else _qCount s) = Z.min (_qCount s + 1) (_qBound s)) as ->.
  { unfold INT_MAX in HB. destruct (Z.ltb_spec (_qCount s) (_qBound s)).
    - rewrite to_size_t_id by (unfold SIZE_MAX; lia). lia.
    - lia. }
  repeat split; try lia.
  intros i y Hi Hy. rewrite push_front_pop_back_take in Hy.
  apply lookup_take_Some in Hy as [Hy Hlt].
  destruct i as [|i]; [lia|]. cbn in Hy.
  apply (Hfill i y); [lia|exact Hy].
Qed.

Lemma bound_size_inv s (sz : Z) h r h' :
  stream_inv s -> 0 <= sz ->
  bound_size s sz h = (Ok r, h') -> stream_inv (fst r).
Proof.
  intros (Hlen & HC & HB & Hfill) Hsz Hrun.
  injection Hrun as <- _. unfold stream_inv; cbn.
  rewrite length_resize. unfold MAX_BOUND_SIZE.
  set (n := Z.min sz INT_MAX).
  repeat split; try (destruct (Z.ltb_spec n (_qCount s)); lia).
  intros i y Hi Hy. unfold resize in Hy.
  apply lookup_app_Some in Hy as [Hy|[_ Hy]].
  - apply lookup_take_Some in Hy as [Hy Hlt].
    apply (Hfill i y); [|exact Hy].
    destruct (Z.ltb_spec n (_qCount s)); lia.
  - apply lookup_replicate_1 in Hy. tauto.
Qed.

(** Resizing a deque of fillers gives a deque of fillers. *)
Lemma resize_replicate (n : Z) (k : nat) :
  resize n (replicate k (value_init : Ty))
  = replicate (Z.to_nat n) value_init.
Proof.
  unfold resize. rewrite take_replicate, length_replicate.
  rewrite <- replicate_add. f_equal. lia.
Qed.

(** C10, as the code has it: [operator[]] at index 0, on any stream whose
    deque has a front element (every stream of capacity at least 1) and
    whose marker cell is allocated, throws nothing and checks nothing: it
    does not compare the deque's length with [_qBound]; it sets the
    marker to [size_t(-1)] and returns the generic wrapping of slot 0.
    On an empty stream ([_qCount = 0]) that slot is the value-initialised
    element: so it is for a stream just constructed with capacity
    [sz >= 1], and for a new stream of any capacity after a resize to
    [n >= 1], from every heap in which the marker cell is allocated. *)
Theorem operator_subscript_zero_total (s : Object Ty) h (sz n : Z) h0 :
  marker_ok s h -> _myImplObj s <> [] ->
  0 <= sz -> sz <= SIZE_MAX -> 1 <= n -> n <= SIZE_MAX ->
  (exists x,
     _myImplObj s !! 0%nat = Some x /\
     operator_subscript s 0 h =
       (Ok (generic_type x),
        <[_mrkCount s := SizeCell (to_size_t (-1))]> h) /\
     marker s (<[_mrkCount s := SizeCell (to_size_t (-1))]> h)
       = Some (to_size_t (-1)) /\
     (stream_inv s -> _qCount s = 0 -> x = value_init)) /\
  (exists (s1 s2 : Object Ty) h1,
     Object_new sz h0 = (Ok s1, h1) /\
     bound_size s1 n h1 = (Ok (s2, Z.min n INT_MAX), h1) /\
     size s1 = 0 /\ size s2 = 0 /\
     (1 <= sz ->
      forall h' m, h' !! _mrkCount s1 = Some (SizeCell m) ->
        operator_subscript s1 0 h' =
          (Ok (generic_type value_init),
           <[_mrkCount s1 := SizeCell (to_size_t (-1))]> h')) /\
     (forall h' m, h' !! _mrkCount s2 = Some (SizeCell m) ->
        operator_subscript s2 0 h' =
          (Ok (generic_type value_init),
           <[_mrkCount s2 := SizeCell (to_size_t (-1))]> h'))).
Proof.
  intros (m & Hm & _) Hne Hsz Hsz' Hn Hn'. split.
  - destruct (_myImplObj s) as [|x rest] eqn:HP; [congruence|].
    exists x. split; [reflexivity|].
    split.
    { apply (operator_subscript_zero_run _ _ m); [exact Hm|].
      rewrite HP. reflexivity. }
    split; [apply marker_insert|].
    intros (_ & _ & _ & Hfill) HC.
    apply (Hfill 0%nat x); [lia|]. rewrite HP. reflexivity.
  - destruct (Object_new_run sz h0) as (mtx & mrk & _ & _ & _ & Hnew).
    eexists _, _, _. split; [exact Hnew|].
    split; [reflexivity|].
    split; [reflexivity|].
    split.
    { unfold size. cbn [_qCount].
      replace (Z.min n MAX_BOUND_SIZE <? 0) with false; [reflexivity|].
      symmetry. apply Z.ltb_ge. unfold MAX_BOUND_SIZE, INT_MAX. lia. }
    split.
    + intros H1 h' m' Hm'.
      apply (operator_subscript_zero_run _ _ m'); [exact Hm'|].
      cbn [_myImplObj]. apply lookup_replicate_2.
      unfold MAX_BOUND_SIZE, INT_MAX. lia.
    + intros h' m' Hm'.
      apply (operator_subscript_zero_run _ _ m'); [exact Hm'|].
      cbn [_myImplObj]. rewrite resize_replicate.
      apply lookup_replicate_2. unfold MAX_BOUND_SIZE, INT_MAX. lia.
Qed.

(** *** Resizing *)

(** What [bound_size( sz )] does: it returns, writes no heap cell, and
    clamps only from above. *)
Lemma bound_size_run (s : Object Ty) (newB : Z) h :
  0 <= newB <= SIZE_MAX ->
  let n := Z.min newB INT_MAX in
  exists s',
    bound_size s newB h = (Ok (s', n), h) /\
    bound_size_get s' = n /\
    Z.of_nat (length (_myImplObj s')) = n /\
    _myImplObj s' =
      take (Z.to_nat n) (_myImplObj s)
      ++ replicate (Z.to_nat n - length (_myImplObj s)) value_init /\
    size s' = (if n <? size s then n else size s) /\
    marker s' h = marker s h.
Proof.
  intros Hn n. eexists. split; [reflexivity|]. cbn.
  rewrite length_resize. unfold MAX_BOUND_SIZE. fold n.
  repeat split; try reflexivity. unfold INT_MAX in *. lia.
Qed.

(** The paired class resizes the secondary deque the same way and then
    calls the base member. *)
Lemma bound_size_paired_run (s : PairedObject Ty SecTy) (newB : Z) h :
  0 <= newB <= SIZE_MAX ->
  let n := Z.min newB INT_MAX in
  exists s' : PairedObject Ty SecTy,
    bound_size_paired s newB h = (Ok (s', n), h) /\
    bound_size (_myBase s) newB h = (Ok (_myBase s', n), h) /\
    _myImplSecObj s' =
      take (Z.to_nat n) (_myImplSecObj s)
      ++ replicate (Z.to_nat n - length (_myImplSecObj s)) value_init /\
    Z.of_nat (length (_myImplSecObj s')) = n.
Proof.
  intros Hn n. eexists. unfold bound_size_paired, bound_size, bind, ret.
  unfold MAX_BOUND_SIZE. fold n.
  replace (Z.min n INT_MAX) with n by lia. cbn.
  repeat split; try reflexivity.
  cbn [_myImplSecObj]. rewrite length_resize. unfold INT_MAX in *. lia.
Qed.

(** C5, as the code has it: [bound_size(newB)] returns; the new bound is
    [min(newB, INT_MAX)], with no lower clamp; the primary deque (and
    the secondary one of a paired stream) keeps its first elements when
    it shrinks and gets value-initialised elements at the tail when it
    grows; the count drops to the new bound when that is smaller; no heap
    cell is written, so the marker is unchanged; the new bound is the
    result. *)
Theorem bound_size_resizes (s : Object Ty) (ps : PairedObject Ty SecTy)
    (newB : Z) h :
  0 <= newB <= SIZE_MAX ->
  let n := Z.min newB INT_MAX in
  (exists s',
     bound_size s newB h = (Ok (s', n), h) /\
     bound_size_get s' = n /\
     Z.of_nat (length (_myImplObj s')) = n /\
     _myImplObj s' =
       take (Z.to_nat n) (_myImplObj s)
       ++ replicate (Z.to_nat n - length (_myImplObj s)) value_init /\
     size s' = (if n <? size s then n else size s) /\
     marker s' h = marker s h) /\
  (exists ps' : PairedObject Ty SecTy,
     bound_size_paired ps newB h = (Ok (ps', n), h) /\
     bound_size (_myBase ps) newB h = (Ok (_myBase ps', n), h) /\
     _myImplSecObj ps' =
       take (Z.to_nat n) (_myImplSecObj ps)
       ++ replicate (Z.to_nat n - length (_myImplSecObj ps)) value_init /\
     Z.of_nat (length (_myImplSecObj ps')) = n).
Proof.
  intros Hn n. split.
  - apply bound_size_run. exact Hn.
  - apply bound_size_paired_run. exact Hn.
Qed.

(** *** The secondary view of a stream without a secondary deque *)

(** C8, as the code has it: on a range [0 <= beg <= end < B],
    [secondary_vector(end, beg)] returns, writes no heap cell, and its
    result is [min(end-beg+1, C)] value-initialised elements. *)
Theorem secondary_vector_length (s : Object Ty) h (end_ beg : Z) :
  stream_inv s ->
  0 <= beg <= end_ -> end_ < _qBound s ->
  secondary_vector s end_ beg h =
    (Ok (replicate (Z.to_nat (Z.min (end_ - beg + 1) (_qCount s)))
                   (value_init : SecTy)), h).
Proof.
  intros (Hlen & HC & HB & _) Hbe He. unfold secondary_vector.
  rewrite (bind_Ok _ _ h (end_, beg) h); cycle 1.
  { rewrite lift_run, _check_adj_in_range by (assumption || lia).
    reflexivity. }
  unfold INT_MAX in *.
  rewrite (to_int_id (end_ + 1)) by (unfold INT_MAX; lia).
  rewrite to_int_id by (unfold INT_MAX; lia).
  rewrite to_size_t_id by (unfold SIZE_MAX; lia).
  replace (end_ + 1 - beg) with (end_ - beg + 1) by lia.
  reflexivity.
Qed.

(** *** The copy constructor *)

Lemma Object_copy_run (s : Object Ty) h :
  exists mtx,
    h !! mtx = None /\
    Object_copy s h =
      (Ok {| _mtx := mtx;
             _push_has_priority := true;
             _qCount := _qCount s;
             _qBound := _qBound s;
             _mrkCount := _mrkCount s;
             _myImplObj := _myImplObj s |},
       <[mtx := MutexCell]> h).
Proof.
  destruct (alloc_fresh MutexCell h) as (mtx & Hmtx & Hfm).
  exists mtx. split; [exact Hfm|].
  unfold Object_copy. rewrite (bind_Ok _ _ _ _ _ Hmtx). reflexivity.
Qed.

(** The fields of a copy: the source's deque, count and bound, a mutex
    at an address not in use before, and the source's marker pointer. *)
Lemma Object_copy_aliases_marker (s : Object Ty) h :
  exists c h1,
    Object_copy s h = (Ok c, h1) /\
    _myImplObj c = _myImplObj s /\ _qCount c = _qCount s /\
    _qBound c = _qBound s /\
    h !! _mtx c = None /\
    _mrkCount c = _mrkCount s /\
    forall h2, marker c h2 = marker s h2.
Proof.
  destruct (Object_copy_run s h) as (mtx & Hfm & Hrun).
  eexists _, _. split; [exact Hrun|]. cbn. repeat split; auto.
Qed.

(** *** The paired stream *)




(** *** Further laws of the specification's section 8 *)

(** X4: after [n] pushes into a new stream of requested capacity [B],
    [size()] is [min(n, bound_size())] and [bound_size()] is
    [min(B, INT_MAX)]. *)
Theorem size_after_pushes (B : Z) (vals : list Ty) h :
  0 <= B <= SIZE_MAX ->
  exists s h1,
    (s0 <- Object_new B ;; push_all s0 vals) h = (Ok s, h1) /\
    bound_size_get s = Z.min B INT_MAX /\
    size s = Z.min (Z.of_nat (length vals)) (bound_size_get s) /\
    Z.of_nat (length (_myImplObj s)) = bound_size_get s.
Proof.
  intros HB.
  destruct (push_all_new_run B vals h HB)
    as (s & h1 & m & Hrun & _ & Hlen & HBs & HC & _).
  exists s, h1. unfold size, bound_size_get. auto.
Qed.

(** X5: negative-index normalisation.  On a stream of capacity at least 1
    that satisfies the invariant, [copy(dest, sz, end = -1, beg = 0)] is
    [copy(dest, sz, end = B - 1, beg = 0)]. *)
Theorem copy_negative_end (s : Object Ty) (dest : option (list Ty))
    (sz : Z) h :
  stream_inv s -> 1 <= _qBound s ->
  copy s dest sz (-1) 0 h = copy s dest sz (_qBound s - 1) 0 h.
Proof.
  intros (Hlen & HC & HB & _) H1. unfold copy.
  destruct dest as [buf|]; [|reflexivity].
  rewrite (_check_adj_negative_end s _ (-1) 0) by (assumption || lia).
  rewrite (_check_adj_in_range s _ (_qBound s - 1) 0) by (assumption || lia).
  replace (-1 + _qBound s) with (_qBound s - 1) by lia.
  reflexivity.
Qed.

(** *** Ranged snapshots *)

(** The exact result of [copy] on a range [0 <= beg < end < B]. *)
Lemma copy_range_run (s : Object Ty) h m (dest : list Ty)
    (destLen end_ beg : Z) :
  h !! _mrkCount s = Some (SizeCell m) ->
  Z.of_nat (length (_myImplObj s)) = _qBound s ->
  _qBound s <= INT_MAX -> 0 <= _qCount s <= _qBound s ->
  0 <= beg -> beg < end_ -> end_ < _qBound s ->
  Z.of_nat (length dest) = destLen -> destLen <= PTRDIFF_MAX ->
  let k := Z.to_nat (Z.min destLen
                           (Z.min (end_ - beg + 1) (_qCount s - beg))) in
  copy s (Some dest) destLen end_ beg h =
    (Ok (take k (drop (Z.to_nat beg) (_myImplObj s)) ++ drop k dest),
     <[_mrkCount s := SizeCell (to_size_t (beg - 1))]> h).
Proof.
  intros Hm Hlen HB HC Hb Hbe He Hbuf Hsz k. unfold copy.
  rewrite (bind_Ok _ _ h (end_, beg) h); cycle 1.
  { rewrite lift_run, _check_adj_in_range by (assumption || lia).
    reflexivity. }
  decide_cmp.
  rewrite (bind_Ok _ _ h
             (take k (drop (Z.to_nat beg) (_myImplObj s)) ++ drop k dest)
             h); cycle 1.
  { rewrite lift_run, _copy_to_ptr_run by (assumption || lia).
    reflexivity. }
  rewrite to_int_id by (unfold INT_MAX in *; lia).
  rewrite (bind_Ok _ _ _ _ _ (store_Ok _ _ _ _ Hm)). reflexivity.
Qed.

(** The exact result of [vector] on a range [0 <= beg <= end < B]. *)
Lemma vector_run (s : Object Ty) h (end_ beg : Z) :
  stream_inv s -> marker_ok s h ->
  0 <= beg <= end_ -> end_ < _qBound s ->
  let k := Z.to_nat (Z.min (end_ + 1) (_qCount s) - beg) in
  vector s end_ beg h =
    (Ok (generic_type <$> take k (drop (Z.to_nat beg) (_myImplObj s))),
     <[_mrkCount s := SizeCell (to_size_t (beg - 1))]> h).
Proof.
  intros (Hlen & HC & HB & _) (m & Hm & _) Hbe He k. unfold vector.
  rewrite (bind_Ok _ _ h (end_, beg) h); cycle 1.
  { rewrite lift_run, _check_adj_in_range by (assumption || lia).
    reflexivity. }
  unfold INT_MAX in *.
  rewrite (to_int_id (end_ + 1)) by (unfold INT_MAX; lia).
  rewrite (to_int_id (beg - 1)) by (unfold INT_MAX; lia).
  rewrite to_size_t_id by (unfold SIZE_MAX; lia).
  set (e := Z.min (end_ + 1) (_qCount s)).
  rewrite (bind_Ok _ _ h
             (generic_type <$> take k (drop (Z.to_nat beg) (_myImplObj s)))
             h); cycle 1.
  { rewrite lift_run. decide_cmp.
    destruct (Z.ltb_spec beg e); [reflexivity|].
    replace k with 0%nat by (subst k e; lia). reflexivity. }
  rewrite (bind_Ok _ _ _ _ _ (store_Ok _ _ _ _ Hm)). reflexivity.
Qed.

(** X7: on a stream that satisfies the invariant and a range
    [0 <= beg <= end < B], [vector(end, beg)] returns
    [k = max(0, min(end+1, C) - beg)] elements, the generic wrappings of
    [P[beg], P[beg+1], ...] in that order, and leaves the marker at
    [beg - 1]. *)
Theorem vector_range (s : Object Ty) h (end_ beg : Z) :
  stream_inv s -> marker_ok s h ->
  0 <= beg <= end_ -> end_ < _qBound s ->
  let k := Z.to_nat (Z.min (end_ + 1) (_qCount s) - beg) in
  exists (v : list GenTy) h',
    vector s end_ beg h = (Ok v, h') /\
    length v = k /\
    (forall j, (j < k)%nat ->
               v !! j = generic_type <$>
                          _myImplObj s !! (Z.to_nat beg + j)%nat) /\
    marker s h' = Some (to_size_t (beg - 1)).
Proof.
  intros Hinv Hmk Hbe He k.
  pose proof Hinv as (Hlen & HC & _).
  eexists _, _. split; [apply vector_run; assumption|]. fold k.
  assert (length (take k (drop (Z.to_nat beg) (_myImplObj s))) = k) as Hlk.
  { rewrite length_take, length_drop. subst k. lia. }
  split; [rewrite length_fmap; exact Hlk|].
  split; [|apply marker_insert].
  intros j Hj.
  rewrite list_lookup_fmap, lookup_take_lt, lookup_drop by lia.
  reflexivity.
Qed.

(** X8: [vector] and [copy] agree.  On a range [0 <= beg < end < B] and a
    buffer that can take the whole range, the elements [copy] has written
    at the front of the buffer, wrapped, are the vector that [vector]
    returns, and the two calls leave the same heap. *)
Theorem vector_matches_copy (s : Object Ty) h (dest : list Ty)
    (destLen end_ beg : Z) :
  stream_inv s -> marker_ok s h ->
  0 <= beg -> beg < end_ -> end_ < _qBound s ->
  Z.of_nat (length dest) = destLen ->
  end_ - beg + 1 <= destLen -> destLen <= PTRDIFF_MAX ->
  exists dest' (v : list GenTy) h',
    copy s (Some dest) destLen end_ beg h = (Ok dest', h') /\
    vector s end_ beg h = (Ok v, h') /\
    Z.of_nat (length v) = Z.max 0 (Z.min (end_ + 1) (_qCount s) - beg) /\
    v = generic_type <$> take (length v) dest'.
Proof.
  intros Hinv Hmk Hb Hbe He Hbuf Hfit Hsz.
  pose proof Hinv as (Hlen & HC & HB & _).
  pose proof Hmk as (m & Hm & _).
  set (k := Z.to_nat (Z.min (end_ + 1) (_qCount s) - beg)).
  assert (Z.to_nat (Z.min destLen
                      (Z.min (end_ - beg + 1) (_qCount s - beg))) = k)
    as Hk by (subst k; lia).
  eexists _, _, _.
  split.
  { apply (copy_range_run s h m); try eassumption; lia. }
  rewrite Hk.
  split.
  { apply vector_run; try assumption; lia. }
  assert (length (take k (drop (Z.to_nat beg) (_myImplObj s))) = k) as Hlk.
  { rewrite length_take, length_drop. subst k. lia. }
  fold k. rewrite length_fmap, Hlk.
  split; [subst k; lia|].
  rewrite take_app_length' by (symmetry; exact Hlk). reflexivity.
Qed.

(** *** Indexed reads from the back *)

(** X9: a negative index counts from the back of the deque, that is from
    the capacity and not from the count: for [-B <= i < 0], [operator[]]
    returns the generic wrapping of [P[B + i]] and leaves the marker at
    [B + i - 1]. *)
Theorem operator_subscript_negative (s : Object Ty) h (i : Z) :
  stream_inv s -> marker_ok s h ->
  - _qBound s <= i -> i < 0 ->
  exists x,
    _myImplObj s !! Z.to_nat (_qBound s + i) = Some x /\
    operator_subscript s i h =
      (Ok (generic_type x),
       <[_mrkCount s := SizeCell (to_size_t (_qBound s + i - 1))]> h).
Proof.
  intros (Hlen & HC & HB & _) (m & Hm & _) Hlo Hhi.
  assert (exists x, _myImplObj s !! Z.to_nat (_qBound s + i) = Some x)
    as [x Hx] by (apply lookup_lt_is_Some_2; lia).
  exists x. split; [exact Hx|].
  unfold operator_subscript. decide_cmp.
  rewrite (bind_Ok _ _ h (i + _qBound s, 0) h); cycle 1.
  { rewrite lift_run, _check_adj_negative_end by (assumption || lia).
    reflexivity. }
  cbn [fst].
  rewrite to_int_id by (unfold INT_MAX in *; lia).
  rewrite (bind_Ok _ _ _ _ _ (store_Ok _ _ _ _ Hm)).
  unfold bind. replace (i + _qBound s) with (_qBound s + i) by lia.
  rewrite lift_run, (at_lookup _ _ x) by (assumption || lia).
  reflexivity.
Qed.

(** *** Failing reads *)

Lemma to_int_le z : 0 <= z -> to_int z <= z.
Proof.
  intros Hz. unfold to_int.
  pose proof (Z.mod_le (z + 2 ^ 31) (2 ^ 32)). lia.
Qed.

(** Indices that pass [_check_adj] lie inside the deque it was given. *)
Lemma _check_adj_Ok_bounds {T} (s : Object Ty) (impl : list T)
    (end_ beg e b : Z) :
  _check_adj s end_ beg impl = Ok (e, b) ->
  0 <= b <= e /\ e < Z.of_nat (length impl).
Proof.
  unfold _check_adj.
  pose proof (to_int_le (Z.of_nat (length impl)) ltac:(lia)) as Hle.
  set (sz := to_int (Z.of_nat (length impl))) in *.
  destruct (negb _); [discriminate|].
  cbn zeta.
  set (e1 := if end_ <? 0 then _ else _).
  set (b1 := if beg <? 0 then _ else _).
  destruct (Z.leb_spec sz b1); [discriminate|].
  destruct (Z.leb_spec sz e1); [discriminate|].
  destruct (Z.ltb_spec b1 0); [discriminate|].
  destruct (Z.ltb_spec e1 0); [discriminate|].
  cbn [orb].
  destruct (Z.ltb_spec e1 b1); [discriminate|].
  intros [= <- <-]. lia.
Qed.

(** X10: a read that throws has written nothing.  Whenever [copy],
    [vector], [operator[]] or [secondary_vector] ends in an exception,
    the heap, and with it the marker, is what it was before the call. *)
Theorem read_throw_keeps_heap (s : Object Ty) h :
  (forall dest sz end_ beg err h',
     copy s dest sz end_ beg h = (Throw err, h') -> h' = h) /\
  (forall end_ beg err h',
     vector s end_ beg h = (Throw err : outcome (list GenTy), h') -> h' = h) /\
  (forall indx err h',
     operator_subscript s indx h = (Throw err : outcome GenTy, h') ->
     h' = h) /\
  (forall end_ beg err h',
     secondary_vector s end_ beg h = (Throw err : outcome (list SecTy), h') ->
     h' = h).
Proof.
  repeat split.
  - intros dest sz end_ beg err h'. unfold copy, bind, lift, throw, ret, store.
    intros Hrun. repeat case_match; simplify_eq; reflexivity.
  - intros end_ beg err h'. unfold vector, bind, lift, ret, store.
    intros Hrun. repeat case_match; simplify_eq; reflexivity.
  - intros indx err h'. unfold operator_subscript.
    destruct (indx =? 0).
    + unfold bind, lift, ret, store, front.
      intros Hrun. repeat case_match; simplify_eq.
    + unfold bind at 1. rewrite lift_run.
      destruct (_check_adj s indx 0 (_myImplObj s)) as [[e b]| |] eqn:Hadj;
        [|intros [= _ <-]; reflexivity|discriminate].
      apply _check_adj_Ok_bounds in Hadj as [Hb He]. cbn [fst].
      assert (exists x, _myImplObj s !! Z.to_nat e = Some x) as [x Hx]
        by (apply lookup_lt_is_Some_2; lia).
      unfold bind, lift, ret, store.
      rewrite (at_lookup _ _ x) by (assumption || lia).
      intros Hrun. repeat case_match; simplify_eq.
  - intros end_ beg err h'. unfold secondary_vector, bind, lift, ret.
    intros Hrun. repeat case_match; simplify_eq; reflexivity.
Qed.

(** X11: the exceptions of [copy], by kind.  On a stream that satisfies
    the invariant and a non-null destination, with [end'] and [beg'] the
    indices after [B] is added to the negative ones: [copy] throws
    [out_of_range] when one of them is outside [[0, B-1]], throws
    [invalid_argument] when both are inside and [beg' > end'], and throws
    nothing otherwise; it never throws [size_violation]. *)
Theorem copy_error_kinds (s : Object Ty) h (dest : list Ty)
    (sz end_ beg : Z) :
  stream_inv s -> marker_ok s h ->
  - 2 ^ 31 <= end_ <= INT_MAX -> - 2 ^ 31 <= beg <= INT_MAX ->
  let B := _qBound s in
  let end' := if end_ <? 0 then end_ + B else end_ in
  let beg' := if beg <? 0 then beg + B else beg in
  if (B <=? beg') || (B <=? end') || (beg' <? 0) || (end' <? 0)
  then copy s (Some dest) sz end_ beg h = (Throw (out_of_range B beg' end'), h)
  else if end' <? beg'
       then copy s (Some dest) sz end_ beg h = (Throw invalid_argument, h)
       else forall err, fst (copy s (Some dest) sz end_ beg h) <> Throw err.
Proof.
  intros (Hlen & HC & HB & _) (m & Hm & _) He Hb B end' beg'.
  assert (_check_adj s end_ beg (_myImplObj s) =
          if (B <=? beg') || (B <=? end') || (beg' <? 0) || (end' <? 0)
          then Throw (out_of_range B beg' end')
          else if end' <? beg' then Throw invalid_argument
               else Ok (end', beg')) as Hadj.
  { subst end' beg' B. unfold _check_adj. rewrite Hlen.
    unfold INT_MAX in *.
    rewrite (to_int_id (_qBound s)) by (unfold INT_MAX; lia).
    rewrite (to_size_t_id (_qBound s)) by (unfold SIZE_MAX; lia).
    rewrite (Z.eqb_refl (_qBound s)). cbn [negb]. cbn zeta.
    assert ((if end_ <? 0 then to_int (end_ + _qBound s) else end_)
            = (if end_ <? 0 then end_ + _qBound s else end_)) as ->.
    { destruct (end_ <? 0) eqn:E; [|reflexivity].
      apply to_int_id. unfold INT_MAX. lia. }
    assert ((if beg <? 0 then to_int (beg + _qBound s) else beg)
            = (if beg <? 0 then beg + _qBound s else beg)) as ->.
    { destruct (beg <? 0) eqn:E; [|reflexivity].
      apply to_int_id. unfold INT_MAX. lia. }
    reflexivity. }
  unfold copy, bind at 1. rewrite lift_run, Hadj.
  destruct ((B <=? beg') || (B <=? end') || (beg' <? 0) || (end' <? 0))
    eqn:Hout; [reflexivity|].
  destruct (end' <? beg') eqn:Hord; [reflexivity|].
  intros err. rewrite (bind_Ok _ _ h (end', beg') h) by reflexivity.
  cbv beta iota.
  apply orb_false_elim in Hout as [Hout H4].
  apply orb_false_elim in Hout as [Hout H3].
  apply orb_false_elim in Hout as [H1 H2].
  apply Z.leb_gt in H1, H2. apply Z.ltb_ge in H3, H4, Hord.
  destruct (Z.eq_dec end' beg') as [Heq|Hne].
  - rewrite Heq, Z.eqb_refl.
    assert (exists x, _myImplObj s !! Z.to_nat beg' = Some x) as [x Hx]
      by (apply lookup_lt_is_Some_2; lia).
    unfold copy_single.
    assert ((if beg' =? 0 then front (_myImplObj s)
             else at_ (_myImplObj s) beg') = Ok x) as ->.
    { destruct (Z.eqb_spec beg' 0) as [E|E].
      - apply front_lookup. rewrite E in Hx. exact Hx.
      - apply at_lookup; [lia|exact Hx]. }
    unfold bind, lift, ret, store, write_first.
    repeat case_match; simplify_eq; cbn; congruence.
  - assert ((end' =? beg') = false) as -> by (apply Z.eqb_neq; exact Hne).
    unfold bind, lift, ret, store, _copy_to_ptr, copy_range.
    repeat case_match; simplify_eq; cbn; congruence.
Qed.

(** *** [empty()] *)

(** X12: [empty()] asks the deque, not the count: after any pushes into a
    new stream of requested capacity [B], [empty()] holds exactly when
    [B = 0]; a new stream of capacity 1 or more is not [empty()] although
    its [size()] is 0. *)
Theorem empty_iff_no_capacity (B : Z) (vals : list Ty) h :
  0 <= B <= SIZE_MAX ->
  exists s h1,
    (s0 <- Object_new B ;; push_all s0 vals) h = (Ok s, h1) /\
    (empty s = true <-> B = 0).
Proof.
  intros HB.
  destruct (push_all_new_run B vals h HB)
    as (s & h1 & m & Hrun & _ & Hlen & HBs & _ & _).
  exists s, h1. split; [exact Hrun|].
  unfold empty. rewrite HBs in Hlen. unfold INT_MAX in Hlen.
  destruct (_myImplObj s); cbn in Hlen; split; intros; try lia; congruence.
Qed.

(** *** The marker across pushes *)

(** Pushes from a valid marker [k]: every push adds one, up to [B - 1]. *)
Lemma push_all_marker_run vals : forall (s : Object Ty) h k,
  h !! _mrkCount s = Some (SizeCell k) ->
  _qBound s <= SIZE_MAX -> 0 <= k <= _qBound s - 1 ->
  exists s' h',
    push_all s vals h = (Ok s', h') /\
    _qBound s' = _qBound s /\ _mrkCount s' = _mrkCount s /\
    h' !! _mrkCount s =
      Some (SizeCell (Z.min (k + Z.of_nat (length vals)) (_qBound s - 1))).
Proof.
  induction vals as [|v rest IH]; intros s h k Hm HB Hk.
  - exists s, h. cbn. rewrite Hm. repeat split; try reflexivity.
    do 2 f_equal. lia.
  - cbn [push_all]. unfold push.
    pose proof (_push_run s v h k Hm) as Hrun.
    rewrite (to_size_t_id (_qBound s - 1)) in Hrun by lia.
    set (s1 := {| _mtx := _mtx s |}) in Hrun.
    set (h1 := if k <? _ then _ else _) in Hrun.
    assert (h1 !! _mrkCount s1 =
            Some (SizeCell (Z.min (k + 1) (_qBound s - 1)))) as Hm1.
    { subst h1 s1; cbn [_mrkCount].
      destruct (Z.ltb_spec k (_qBound s - 1)).
      - rewrite lookup_insert_eq, to_size_t_id by lia. do 2 f_equal. lia.
      - rewrite Hm. do 2 f_equal. lia. }
    destruct (IH s1 h1 _ Hm1) as (s' & h' & Hrun' & HB' & Hk' & Hm');
      [subst s1; cbn; lia..|].
    exists s', h'. rewrite (bind_Ok _ _ _ _ _ Hrun).
    split; [exact Hrun'|]. split; [exact HB'|]. split; [exact Hk'|].
    change (_mrkCount s1) with (_mrkCount s) in Hm'.
    change (_qBound s1) with (_qBound s) in Hm'.
    rewrite Hm', length_cons. do 2 f_equal. lia.
Qed.

(** X13: pushes never set an unset marker.  From a marker that holds
    [size_t(-1)], any sequence of pushes returns, changes no heap cell,
    and leaves the marker unset; this is so for every new stream. *)
Theorem push_all_marker_unset (vals : list Ty) (s : Object Ty) h :
  h !! _mrkCount s = Some (SizeCell (to_size_t (-1))) ->
  exists s',
    push_all s vals h = (Ok s', h) /\
    marker s' h = Some (to_size_t (-1)).
Proof.
  revert s. induction vals as [|v rest IH]; intros s Hm.
  - exists s. split; [reflexivity|]. apply marker_lookup. exact Hm.
  - cbn [push_all]. unfold push.
    pose proof (_push_run s v h _ Hm) as Hrun.
    assert ((to_size_t (-1) <? to_size_t (_qBound s - 1)) = false) as Hlt.
    { apply Z.ltb_ge. rewrite to_size_t_minus_one. apply to_size_t_range. }
    rewrite Hlt in Hrun.
    set (s1 := {| _mtx := _mtx s |}) in Hrun.
    destruct (IH s1 Hm) as (s' & Hrun' & Hmk).
    exists s'. rewrite (bind_Ok _ _ _ _ _ Hrun). split; assumption.
Qed.

(** X14: reading since the last read.  After [operator[]( i )] with
    [0 < i < B] and then [n] pushes, the marker is [min(i - 1 + n, B - 1)],
    and [copy_using_atomic_marker(dest, sz, beg)] is
    [copy(dest, sz, end, beg)] with that [end]. *)
Theorem marker_copy_after_read_and_pushes (s : Object Ty) h (i : Z)
    (vals : list Ty) (dest : option (list Ty)) (sz beg : Z) :
  stream_inv s -> marker_ok s h -> 0 < i -> i < _qBound s ->
  exists (g : GenTy) h1 s' h2,
    operator_subscript s i h = (Ok g, h1) /\
    push_all s vals h1 = (Ok s', h2) /\
    marker s' h2 =
      Some (Z.min (i - 1 + Z.of_nat (length vals)) (_qBound s - 1)) /\
    copy_using_atomic_marker s' dest sz beg h2 =
      copy s' dest sz
           (Z.min (i - 1 + Z.of_nat (length vals)) (_qBound s - 1)) beg h2.
Proof.
  intros (Hlen & HC & HB & _) (m & Hm & _) Hi Hi'.
  assert (exists x, _myImplObj s !! Z.to_nat i = Some x) as [x Hx]
    by (apply lookup_lt_is_Some_2; lia).
  pose proof (operator_subscript_pos_run s h m i x Hm Hlen HB
                (conj Hi Hi') Hx) as Hread.
  set (h1 := <[_mrkCount s := SizeCell (i - 1)]> h) in Hread.
  assert (h1 !! _mrkCount s = Some (SizeCell (i - 1))) as Hm1
    by (subst h1; apply lookup_insert_eq).
  unfold INT_MAX in HB.
  destruct (push_all_marker_run vals s h1 (i - 1) Hm1)
    as (s' & h2 & Hrun & HB' & Hk' & Hm2); [unfold SIZE_MAX; lia|lia|].
  exists (generic_type x), h1, s', h2.
  split; [exact Hread|]. split; [exact Hrun|].
  rewrite <- Hk' in Hm2.
  split; [apply marker_lookup; exact Hm2|].
  rewrite (copy_using_atomic_marker_run _ _ _ _ _ _ Hm2) by lia.
  rewrite to_int_id by (unfold INT_MAX; lia). reflexivity.
Qed.

(** *** Resizing and what follows it *)

(** X15: the marker is not clamped by a resize, so shrinking to a bound
    at or below the marker makes the marker-bounded copy fail: after
    [bound_size( n )] with [n <= M], [copy_using_atomic_marker] throws
    [out_of_range], for every non-null destination and every [beg >= 0]. *)
Theorem shrink_below_marker_throws (s : Object Ty) h (m n : Z)
    (dest : list Ty) (sz beg : Z) :
  stream_inv s -> h !! _mrkCount s = Some (SizeCell m) ->
  0 <= n -> n <= m -> m <= INT_MAX -> 0 <= beg ->
  exists s',
    bound_size s n h = (Ok (s', n), h) /\
    copy_using_atomic_marker s' (Some dest) sz beg h =
      (Throw (out_of_range n beg m), h).
Proof.
  intros (Hlen & HC & HB & _) Hm Hn Hnm Hmax Hb.
  unfold INT_MAX in *.
  assert (Z.min n MAX_BOUND_SIZE = n) as Hclamp
    by (unfold MAX_BOUND_SIZE, INT_MAX; lia).
  eexists. split.
  { unfold bound_size, ret. rewrite Hclamp. reflexivity. }
  set (s' := {| _mtx := _mtx s |}).
  assert (h !! _mrkCount s' = Some (SizeCell m)) as Hm' by exact Hm.
  rewrite (copy_using_atomic_marker_run _ _ _ _ _ _ Hm') by lia.
  rewrite (to_int_id m) by (unfold INT_MAX; lia).
  unfold copy, bind. rewrite lift_run.
  unfold _check_adj. subst s'. cbn [_myImplObj _qBound].
  rewrite length_resize, Z2Nat.id by lia.
  rewrite (to_int_id n) by (unfold INT_MAX; lia).
  rewrite (to_size_t_id n) by (unfold SIZE_MAX; lia).
  rewrite (Z.eqb_refl n). cbn [negb]. cbn zeta.
  decide_cmp. rewrite orb_true_r. reflexivity.
Qed.

(** X16: shrinking and growing back does not bring the elements back.
    For [0 <= n <= B], [bound_size( n )] followed by [bound_size( B )]
    leaves the first [n] elements, [B - n] value-initialised ones after
    them, the count [min(C, n)] and the bound [B]. *)
Theorem bound_size_shrink_grow (s : Object Ty) h (n : Z) :
  stream_inv s -> 0 <= n -> n <= _qBound s ->
  exists s1 s2,
    bound_size s n h = (Ok (s1, n), h) /\
    bound_size s1 (_qBound s) h = (Ok (s2, _qBound s), h) /\
    _myImplObj s2 =
      take (Z.to_nat n) (_myImplObj s)
      ++ replicate (Z.to_nat (_qBound s - n)) value_init /\
    size s2 = Z.min (size s) n /\
    bound_size_get s2 = bound_size_get s.
Proof.
  intros (Hlen & HC & HB & _) Hn HnB.
  assert (Z.min n MAX_BOUND_SIZE = n) as Hc1
    by (unfold MAX_BOUND_SIZE; lia).
  assert (Z.min (_qBound s) MAX_BOUND_SIZE = _qBound s) as Hc2
    by (unfold MAX_BOUND_SIZE; lia).
  eexists _, _. split.
  { unfold bound_size, ret. rewrite Hc1. reflexivity. }
  split.
  { unfold bound_size, ret. rewrite Hc2. reflexivity. }
  cbn [_myImplObj _qCount _qBound size bound_size_get].
  split.
  { unfold resize at 1. rewrite length_resize.
    rewrite take_ge by (rewrite length_resize; lia).
    unfold resize.
    replace (Z.to_nat n - length (_myImplObj s))%nat with 0%nat by lia.
    cbn [replicate]. rewrite app_nil_r. f_equal. f_equal. lia. }
  split; [|reflexivity]. unfold size; cbn [_qCount].
  destruct (Z.ltb_spec n (_qCount s)).
  - destruct (Z.ltb_spec (_qBound s) n); lia.
  - destruct (Z.ltb_spec (_qBound s) (_qCount s)); lia.
Qed.

(** *** The paired stream: ranged and indexed reads, invariant *)

(** X17: the paired [copy] snapshots the same slots of both deques.  On
    a paired stream that satisfies the invariant, a range
    [0 <= beg < end < B] and two buffers of [sz] elements, the first
    [k = min(sz, end-beg+1, C-beg)] elements of [dest] become
    [P[beg], ...], the first [k] of [sec] become [Q[beg], ...], the rest
    of both is untouched, and the marker is [beg - 1]. *)
Theorem copy_paired_lock_step (s : PairedObject Ty SecTy) h
    (dest : list Ty) (sec : list SecTy) (sz end_ beg : Z) :
  paired_inv s -> marker_ok (_myBase s) h ->
  0 <= beg -> beg < end_ -> end_ < _qBound (_myBase s) ->
  Z.of_nat (length dest) = sz -> Z.of_nat (length sec) = sz ->
  sz <= PTRDIFF_MAX ->
  let k := Z.to_nat (Z.min sz (Z.min (end_ - beg + 1)
                                     (_qCount (_myBase s) - beg))) in
  copy_paired s (Some dest) sz end_ beg (Some sec) h =
    (Ok (take k (drop (Z.to_nat beg) (_myImplObj (_myBase s)))
           ++ drop k dest,
         Some (take k (drop (Z.to_nat beg) (_myImplSecObj s))
                 ++ drop k sec)),
     <[_mrkCount (_myBase s) := SizeCell (to_size_t (beg - 1))]> h).
Proof.
  intros ((Hlen & HC & HB & _) & HlenQ) (m & Hm & _) Hb Hbe He Hd Hs Hsz k.
  unfold copy_paired.
  rewrite (bind_Ok _ _ _ _ _
             (copy_range_run (_myBase s) h m dest sz end_ beg
                Hm Hlen HB HC Hb Hbe He Hd Hsz)).
  fold k. cbn iota.
  set (h1 := <[_ := _]> h).
  rewrite (bind_Ok _ _ h1 (end_, beg) h1); cycle 1.
  { rewrite lift_run, _check_adj_in_range by (assumption || lia).
    reflexivity. }
  decide_cmp. unfold bind.
  rewrite lift_run, _copy_to_ptr_run by (assumption || lia).
  reflexivity.
Qed.

(** X18: [secondary( dest, i )] checks its index whatever it is, 0
    included.  On a paired stream that satisfies the invariant, with [i']
    the index after [B] is added to a negative one: when [i'] is outside
    [[0, B-1]] (so for every index when the capacity is 0) the call throws
    [out_of_range] and leaves the heap as it was; otherwise it stores
    [Q[i']] in [*dest] and leaves the marker at [i' - 1], which is
    [size_t(-1)] when [i' = 0]. *)
Theorem secondary_reads (s : PairedObject Ty SecTy) h (i : Z) :
  paired_inv s -> marker_ok (_myBase s) h ->
  - 2 ^ 31 <= i -> i <= INT_MAX ->
  let B := _qBound (_myBase s) in
  let i' := if i <? 0 then i + B else i in
  if (B <=? 0) || (B <=? i') || (i' <? 0)
  then secondary s i h = (Throw (out_of_range B 0 i'), h)
  else exists t,
    _myImplSecObj s !! Z.to_nat i' = Some t /\
    secondary s i h =
      (Ok t, <[_mrkCount (_myBase s) := SizeCell (to_size_t (i' - 1))]> h).
Proof.
  intros ((Hlen & HC & HB & _) & HlenQ) (m & Hm & _) Hi Hi' B i'.
  assert (_check_adj (_myBase s) i 0 (_myImplSecObj s) =
          if (B <=? 0) || (B <=? i') || (i' <? 0)
          then Throw (out_of_range B 0 i')
          else Ok (i', 0)) as Hadj.
  { subst i' B. unfold _check_adj. rewrite HlenQ.
    rewrite (to_int_id (_qBound (_myBase s))) by (unfold INT_MAX in *; lia).
    rewrite (to_size_t_id (_qBound (_myBase s)))
      by (unfold INT_MAX, SIZE_MAX in *; lia).
    rewrite (Z.eqb_refl (_qBound (_myBase s))). cbn [negb]. cbn zeta.
    assert ((if i <? 0 then to_int (i + _qBound (_myBase s)) else i)
            = (if i <? 0 then i + _qBound (_myBase s) else i)) as ->.
    { destruct (i <? 0) eqn:E; [|reflexivity].
      apply Z.ltb_lt in E. apply to_int_id. unfold INT_MAX in *. lia. }
    change (0 <? 0) with false. cbn iota.
    change (0 <? 0) with false. rewrite orb_false_r.
    destruct ((_qBound (_myBase s) <=? 0)
              || (_qBound (_myBase s) <=?
                  (if i <? 0 then i + _qBound (_myBase s) else i))
              || ((if i <? 0 then i + _qBound (_myBase s) else i) <? 0))
      eqn:Hout; [reflexivity|].
    apply orb_false_elim in Hout as [_ Hout]. apply Z.ltb_ge in Hout.
    replace ((if i <? 0 then i + _qBound (_myBase s) else i) <? 0)
      with false by (symmetry; apply Z.ltb_ge; exact Hout).
    reflexivity. }
  unfold secondary. rewrite Hadj.
  destruct ((B <=? 0) || (B <=? i') || (i' <? 0)) eqn:Hout; [reflexivity|].
  apply orb_false_elim in Hout as [Hout H3].
  apply orb_false_elim in Hout as [H1 H2].
  apply Z.leb_gt in H1, H2. apply Z.ltb_ge in H3.
  assert (exists t, _myImplSecObj s !! Z.to_nat i' = Some t) as [t Ht]
    by (apply lookup_lt_is_Some_2; lia).
  exists t. split; [exact Ht|].
  rewrite (bind_Ok _ _ h (i', 0) h) by reflexivity.
  cbn [fst].
  rewrite (bind_Ok _ _ h t h); cycle 1.
  { rewrite lift_run. f_equal.
    destruct (Z.eqb_spec i' 0) as [E|Hne].
    - apply front_lookup. rewrite E in Ht. exact Ht.
    - apply at_lookup; [lia|exact Ht]. }
  rewrite to_int_id by (unfold INT_MAX in *; lia).
  rewrite (bind_Ok _ _ _ _ _ (store_Ok _ _ _ _ Hm)). reflexivity.
Qed.

(** X19: on a paired stream, [secondary_vector(end, beg)] for
    [0 <= beg <= end < B] returns [Q[beg] .. Q[min(end, C-1)]] as they are
    (nothing when [beg >= C]) and leaves the marker at [beg - 1]. *)
Theorem secondary_vector_paired_range (s : PairedObject Ty SecTy) h
    (end_ beg : Z) :
  paired_inv s -> marker_ok (_myBase s) h ->
  0 <= beg <= end_ -> end_ < _qBound (_myBase s) ->
  let k := Z.to_nat (Z.min (end_ + 1) (_qCount (_myBase s)) - beg) in
  secondary_vector_paired s end_ beg h =
    (Ok (take k (drop (Z.to_nat beg) (_myImplSecObj s))),
     <[_mrkCount (_myBase s) := SizeCell (to_size_t (beg - 1))]> h).
Proof.
  intros ((Hlen & HC & HB & _) & HlenQ) (m & Hm & _) Hbe He k.
  unfold secondary_vector_paired.
  rewrite (bind_Ok _ _ h (end_, beg) h); cycle 1.
  { rewrite lift_run, _check_adj_in_range by (assumption || lia).
    reflexivity. }
  unfold INT_MAX in *.
  rewrite (to_int_id (end_ + 1)) by (unfold INT_MAX; lia).
  rewrite (to_int_id (beg - 1)) by (unfold INT_MAX; lia).
  rewrite to_size_t_id by (unfold SIZE_MAX; lia).
  set (e := Z.min (end_ + 1) (_qCount (_myBase s))).
  rewrite (bind_Ok _ _ h (take k (drop (Z.to_nat beg) (_myImplSecObj s))) h);
    cycle 1.
  { rewrite lift_run. decide_cmp.
    destruct (Z.ltb_spec 0 (e - beg)); [reflexivity|].
    replace k with 0%nat by (subst k e; lia). reflexivity. }
  rewrite (bind_Ok _ _ _ _ _ (store_Ok _ _ _ _ Hm)). reflexivity.
Qed.

(** The stream a push returns satisfies the invariant. *)
Lemma stream_inv_pushed (s : Object Ty) x :
  stream_inv s ->
  stream_inv {| _mtx := _mtx s;
                _push_has_priority := true;
                _qCount := if _qCount s <? _qBound s
                           then to_size_t (_qCount s + 1) else _qCount s;
                _qBound := _qBound s;
                _mrkCount := _mrkCount s;
                _myImplObj := push_front_pop_back x (_myImplObj s) |}.
Proof.
  intros (Hlen & HC & HB & Hfill). unfold stream_inv.
  cbn [_myImplObj _qCount _qBound].
  rewrite length_push_front_pop_back.
  assert ((if _qCount s <? _qBound s then to_size_t (_qCount s + 1)
           else _qCount s) = Z.min (_qCount s + 1) (_qBound s)) as ->.
  { unfold INT_MAX in HB. destruct (Z.ltb_spec (_qCount s) (_qBound s)).
    - rewrite to_size_t_id by (unfold SIZE_MAX; lia). lia.
    - lia. }
  repeat split; try lia.
  intros i y Hi Hy. rewrite push_front_pop_back_take in Hy.
  apply lookup_take_Some in Hy as [Hy Hlt].
  destruct i as [|i]; [lia|]. cbn in Hy.
  apply (Hfill i y); [lia|exact Hy].
Qed.

(** X20: the paired stream keeps its invariant, and with it the equal
    length of the two deques, under [push( v, s )] and under
    [bound_size( n )]. *)
Theorem paired_inv_kept (s : PairedObject Ty SecTy) :
  paired_inv s ->
  (forall x t h (s' : PairedObject Ty SecTy) h',
     _push_paired s x t h = (Ok s', h') -> paired_inv s') /\
  (forall n h r h',
     0 <= n -> bound_size_paired s n h = (Ok r, h') -> paired_inv (fst r)).
Proof.
  intros (Hinv & HlenQ). split.
  - intros x t h s' h' Hrun.
    unfold _push_paired, bind in Hrun.
    destruct (load _ h) as [[m| |] h0]; try discriminate.
    assert (s' = {| _myBase :=
                      {| _mtx := _mtx (_myBase s);
                         _push_has_priority := true;
                         _qCount := if _qCount (_myBase s) <? _qBound (_myBase s)
                                    then to_size_t (_qCount (_myBase s) + 1)
                                    else _qCount (_myBase s);
                         _qBound := _qBound (_myBase s);
                         _mrkCount := _mrkCount (_myBase s);
                         _myImplObj :=
                           push_front_pop_back x (_myImplObj (_myBase s)) |};
                    _myImplSecObj :=
                      push_front_pop_back t (_myImplSecObj s) |}) as ->.
    { destruct (m <? _); [destruct (store _ _ _) as [[[]| |] ?]|];
        cbn in Hrun; try discriminate; injection Hrun as <- _; reflexivity. }
    split; [apply stream_inv_pushed; exact Hinv|].
    cbn [_myBase _myImplSecObj _qBound].
    rewrite length_push_front_pop_back. exact HlenQ.
  - intros n h r h' Hn Hrun.
    unfold bound_size_paired, bind in Hrun.
    destruct (bound_size (_myBase s) (Z.min n MAX_BOUND_SIZE) h)
      as [[rb| |] h0] eqn:Hb; try discriminate.
    injection Hrun as <- _. cbn [fst _myBase _myImplSecObj].
    split.
    + eapply bound_size_inv; [exact Hinv| |exact Hb].
      unfold MAX_BOUND_SIZE, INT_MAX. lia.
    + injection Hb as <- _. cbn [fst _qBound _myBase _myImplSecObj].
      rewrite length_resize. unfold MAX_BOUND_SIZE, INT_MAX. lia.
Qed.

(** *** The invariant: where it comes from *)

(** X21: the constructor returns for every requested capacity, and the
    new stream satisfies the invariant: it has [min(sz, INT_MAX)]
    value-initialised slots, count 0 and an unset marker; its mutex and
    its marker cell are two new cells, and no other cell of the heap is
    changed. *)
Theorem Object_new_establishes (sz : Z) h :
  0 <= sz -> sz <= SIZE_MAX ->
  exists (s : Object Ty) h',
    Object_new sz h = (Ok s, h') /\
    stream_inv s /\ size s = 0 /\ bound_size_get s = Z.min sz INT_MAX /\
    marker s h' = Some (to_size_t (-1)) /\
    h !! _mtx s = None /\ h !! _mrkCount s = None /\
    _mtx s <> _mrkCount s /\
    forall p, p <> _mtx s -> p <> _mrkCount s -> h' !! p = h !! p.
Proof.
  intros Hsz _.
  destruct (Object_new_run sz h) as (mtx & mrk & Hne & Hfm & Hfk & Hrun).
  destruct (Object_new_inv sz h _ _ Hsz Hrun) as (Hinv & HC & HB & Hm).
  eexists _, _. split; [exact Hrun|].
  split; [exact Hinv|]. split; [exact HC|]. split; [exact HB|].
  split; [apply marker_lookup; exact Hm|].
  cbn [_mtx _mrkCount]. repeat split; try assumption.
  intros p Hp1 Hp2. rewrite !lookup_insert_ne by congruence. reflexivity.
Qed.

(** X22: [bound_size( n )] returns for every [n] and keeps the
    invariant, also when it shrinks below the count or to 0. *)
Theorem bound_size_keeps_inv (s : Object Ty) (n : Z) h :
  stream_inv s -> 0 <= n -> n <= SIZE_MAX ->
  exists s',
    bound_size s n h = (Ok (s', Z.min n INT_MAX), h) /\ stream_inv s'.
Proof.
  intros Hinv Hn _.
  eexists. split; [reflexivity|].
  apply (bound_size_inv s n h _ h Hinv Hn eq_refl).
Qed.

End StreamFacts.

(** ** The copy into rows of characters *)

(** The C string is never longer than the [std::string] it is read
    from, and as long when that holds no NUL. *)
Lemma strlen_le (s : string) : (strlen s <= String.length s)%nat.
Proof.
  induction s as [|c rest IH]; cbn; [lia|].
  destruct (Ascii.eqb c Ascii.zero); lia.
Qed.

Lemma strlen_no_NUL (s : string) :
  (forall n, String.get n s <> Some Ascii.zero) ->
  strlen s = String.length s.
Proof.
  induction s as [|c rest IH]; intros Hn; cbn; [reflexivity|].
  destruct (Ascii.eqb_spec c Ascii.zero) as [->|_].
  - destruct (Hn 0%nat). reflexivity.
  - f_equal. apply IH. intros n. exact (Hn (S n)).
Qed.

(** No character before [strlen] is NUL, and the one at [strlen], when
    there is one, is. *)
Lemma strlen_first_NUL (s : string) :
  (forall n, (n < strlen s)%nat ->
     exists c, String.get n s = Some c /\ c <> Ascii.zero) /\
  ((strlen s < String.length s)%nat ->
   String.get (strlen s) s = Some Ascii.zero).
Proof.
  induction s as [|c rest [IH1 IH2]]; cbn.
  - split; intros; lia.
  - destruct (Ascii.eqb_spec c Ascii.zero) as [->|Hc].
    + split; [intros; lia|reflexivity].
    + split.
      * intros [|n] Hn; [exists c; split; [reflexivity|exact Hc]|].
        apply IH1. lia.
      * intros Hn. apply IH2. lia.
Qed.

Lemma length_substring_0 (t : string) (k : nat) :
  (k <= String.length t)%nat -> String.length (substring 0 k t) = k.
Proof.
  revert k. induction t as [|a t IH]; intros [|k] Hk; cbn in *;
    try reflexivity; try lia.
  rewrite IH by lia. reflexivity.
Qed.

Section StringCopyFacts.
Context {Ty GenTy : Type}.
Context {VTy : ValueInit Ty} {Gen : Generic GenTy Ty} {Str : AsString GenTy}.

(** The loop writes row [i], [i + 1], ... for the elements of [src], and
    stops at [destSz]. *)
Lemma copy_rows_run (destSz strSz : Z) (src : list Ty) :
  forall (dest : list string) (i : Z),
    1 <= strSz -> strSz <= SIZE_MAX ->
    0 <= i -> i + Z.of_nat (length src) <= SIZE_MAX ->
    destSz <= Z.of_nat (length dest) ->
    let n := Z.to_nat (Z.min (Z.of_nat (length src)) (destSz - i)) in
    copy_rows destSz strSz i src dest =
      Ok (take (Z.to_nat i) dest
          ++ (row_of strSz <$> take n src)
          ++ drop (Z.to_nat i + n) dest).
Proof.
  induction src as [|x rest IH]; intros dest i Hs Hs' Hi Hfit Hd n.
  - replace n with 0%nat by (subst n; cbn [length]; lia).
    cbn. rewrite Nat.add_0_r, take_drop. reflexivity.
  - cbn [copy_rows]. rewrite length_cons in Hfit.
    destruct (Z.ltb_spec i destSz) as [Hlt|Hge].
    + assert (exists r, dest !! Z.to_nat i = Some r) as [r Hr]
        by (apply lookup_lt_is_Some_2; lia).
      rewrite Hr. unfold strncpy_s.
      rewrite (to_size_t_id (strSz - 1)) by lia. cbn zeta.
      pose proof (strlen_le (as_string (generic_type x))) as Hle.
      set (L := Z.of_nat (String.length (as_string (generic_type x)))) in *.
      set (N := Z.of_nat (strlen (as_string (generic_type x)))).
      assert (N <= L) as HNL by (subst N L; lia).
      replace (Z.min (Z.min (strSz - 1) L) N) with (Z.min (strSz - 1) N)
        by lia.
      decide_cmp. subst N. fold (row_of strSz x).
      rewrite (to_size_t_id (i + 1)) by lia.
      rewrite IH by (rewrite ?length_insert; lia). cbn zeta.
      assert (n = S (Z.to_nat (Z.min (Z.of_nat (length rest))
                                     (destSz - (i + 1))))) as ->
        by (subst n; rewrite length_cons; lia).
      set (n' := Z.to_nat (Z.min (Z.of_nat (length rest))
                                 (destSz - (i + 1)))).
      replace (Z.to_nat (i + 1)) with (S (Z.to_nat i)) by lia.
      f_equal. cbn [take fmap list_fmap].
      rewrite (take_S_r _ _ (row_of strSz x))
        by (apply list_lookup_insert_eq; lia).
      rewrite take_insert_ge by lia.
      rewrite drop_insert_lt by lia.
      rewrite <- app_assoc. cbn [app].
      replace (Z.to_nat i + S n')%nat with (S (Z.to_nat i) + n')%nat by lia.
      reflexivity.
    + replace n with 0%nat by (subst n; lia).
      cbn. rewrite Nat.add_0_r, take_drop. reflexivity.
Qed.

(** X23: on a stream that satisfies the invariant, a range
    [0 <= beg <= end < B], [destSz] rows and [strSz >= 1],
    [copy( char** dest, destSz, strSz, end, beg )] writes the first
    [n = min(destSz, min(end+1, C) - beg)] rows: row [j] holds the generic
    string of [P[beg + j]], read as a C string (up to its first NUL) and
    cut to [strSz - 1] characters, so the row holds no NUL and at most
    [strSz - 1] characters; the other rows are untouched and the marker
    is [beg - 1].  There is no
    single-element shortcut here: a one-element range on a slot that was
    never pushed writes no row. *)
Theorem copy_strings_writes (s : Object Ty) h (rows : list string)
    (destSz strSz end_ beg : Z) :
  stream_inv s -> marker_ok s h ->
  0 <= beg <= end_ -> end_ < _qBound s ->
  Z.of_nat (length rows) = destSz ->
  1 <= strSz -> strSz <= SIZE_MAX ->
  let n := Z.to_nat (Z.min destSz (Z.min (end_ + 1) (_qCount s) - beg)) in
  exists rows' h',
    copy_strings s (Some rows) destSz strSz end_ beg h = (Ok rows', h') /\
    length rows' = length rows /\
    (forall j x, (j < n)%nat ->
                 _myImplObj s !! (Z.to_nat beg + j)%nat = Some x ->
                 rows' !! j = Some (row_of strSz x) /\
                 Z.of_nat (String.length (row_of strSz x)) <= strSz - 1 /\
                 forall k, String.get k (row_of strSz x) <> Some Ascii.zero) /\
    (forall j, (n <= j)%nat -> rows' !! j = rows !! j) /\
    marker s h' = Some (to_size_t (beg - 1)).
Proof.
  intros (Hlen & HC & HB & _) (m & Hm & _) Hbe He Hrows Hs Hs' n.
  unfold INT_MAX in *.
  set (e := Z.min (end_ + 1) (_qCount s)).
  set (src := take (Z.to_nat (e - beg)) (drop (Z.to_nat beg) (_myImplObj s))).
  assert (length src = Z.to_nat (e - beg)) as Hsrc.
  { subst src. rewrite length_take, length_drop. subst e. lia. }
  assert (n = Z.to_nat (Z.min (Z.of_nat (length src)) (destSz - 0))) as Hn.
  { rewrite Hsrc. subst n. fold e. lia. }
  assert (n <= length src)%nat as Hn1 by lia.
  assert (n <= length rows)%nat as Hn2 by (subst n; lia).
  exists ((row_of strSz <$> take n src) ++ drop n rows).
  exists (<[_mrkCount s := SizeCell (to_size_t (beg - 1))]> h).
  split.
  { unfold copy_strings.
    rewrite (bind_Ok _ _ h (end_, beg) h); cycle 1.
    { rewrite lift_run, _check_adj_in_range
        by (assumption || unfold INT_MAX; lia).
      reflexivity. }
    rewrite (to_int_id (end_ + 1)) by (unfold INT_MAX; lia).
    rewrite (to_int_id (beg - 1)) by (unfold INT_MAX; lia).
    rewrite (to_size_t_id (end_ + 1)) by (unfold SIZE_MAX; lia).
    fold e. fold src.
    rewrite (bind_Ok _ _ h
               ((row_of strSz <$> take n src) ++ drop n rows) h); cycle 1.
    { rewrite lift_run. decide_cmp.
      rewrite copy_rows_run by (unfold SIZE_MAX in *; lia).
      cbn zeta. rewrite <- Hn. reflexivity. }
    rewrite (bind_Ok _ _ _ _ _ (store_Ok _ _ _ _ Hm)). reflexivity. }
  assert (length (row_of strSz <$> take n src) = n) as Hlr
    by (rewrite length_fmap, length_take; lia).
  split.
  { rewrite length_app, Hlr, length_drop. lia. }
  split.
  { intros j x Hj Hx. split.
    - rewrite lookup_app_l by lia.
      rewrite list_lookup_fmap, lookup_take_lt by lia.
      subst src. rewrite lookup_take_lt by lia.
      rewrite lookup_drop, Hx. reflexivity.
    - unfold row_of.
      set (g := as_string (generic_type x)).
      set (c := Z.to_nat _).
      pose proof (strlen_le g) as Hle.
      assert (c <= String.length g)%nat as Hc by (subst c; lia).
      assert (Z.of_nat c <= strSz - 1) as Hc' by (subst c; lia).
      assert (c <= strlen g)%nat as Hc'' by (subst c; lia).
      split; [rewrite length_substring_0 by exact Hc; exact Hc'|].
      intros k. destruct (Nat.lt_ge_cases k c) as [Hk|Hk].
      + rewrite substring_correct1 by exact Hk. rewrite Nat.add_0_r.
        destruct (proj1 (strlen_first_NUL g) k) as (a & -> & Ha); [lia|].
        intros [=E]. exact (Ha E).
      + rewrite substring_correct2 by exact Hk. discriminate. }
  split.
  { intros j Hj. rewrite lookup_app_r by lia.
    rewrite Hlr, lookup_drop. f_equal. lia. }
  apply marker_insert.
Qed.

End StringCopyFacts.

(** ** The typed push of the interface *)

Section FacadeFacts.
Context {F D : Type}.
Context (float_to_double : F -> D) (double_to_string : D -> string).

Local Abbreviation push_through :=
  (push_facade float_to_double double_to_string).

(** Run the overload chain of a goal to its end. *)
Ltac run_chain :=
  cbn; unfold loop_step;
  repeat match goal with
    | |- context [?c =? 0] =>
        let E := fresh "E" in
        destruct (Z.eqb_spec c 0) as [E|E]; [try subst|]; cbn
    end.

(** X24: a push through the interface always ends, after at most seven
    calls of overloads, whatever the element type, the argument and the
    value of [_count1] before: it either reaches the overload of the
    element type or throws [type_error], and [_count1] is 0 afterwards in
    both cases. *)
Theorem push_facade_returns (Ty : ctype) (v : push_arg) (count1 : Z)
    (n : nat) :
  (exists v' : push_arg,
     push_through (7 + n) Ty v count1 = Some (Ok v', 0) /\
     type_of v' = Ty) \/
  push_through (7 + n) Ty v count1 = Some (Throw type_error, 0).
Proof.
  destruct Ty, v; run_chain; eauto.
Qed.

(** X25: which arguments a numeric stream takes.  For a numeric element
    type, a push through the interface reaches the stream exactly when
    the argument's type is of the same kind (signed integer, unsigned
    integer, floating) and not wider than the element type; an integer
    then arrives with its value unchanged, and an argument of the
    element type arrives as it is.  Every other argument, text included,
    ends in [type_error]. *)
Theorem push_facade_numeric (Ty : ctype) (v : push_arg) :
  is_numeric_type Ty = true ->
  if same_kind (type_of v) Ty && (rank (type_of v) <=? rank Ty)%nat
  then exists v' : push_arg,
         push_through 7 Ty v 0 = Some (Ok v', 0) /\
         type_of v' = Ty /\
         integer_of v' = integer_of v /\
         (type_of v = Ty -> v' = v)
  else push_through 7 Ty v 0 = Some (Throw type_error, 0).
Proof.
  destruct Ty, v; intros HTy; try discriminate HTy; cbn;
    try reflexivity; eexists; repeat split; congruence.
Qed.

(** X26: a stream of strings takes every argument.  A push through the
    interface of a stream whose element type is [std::string] never
    throws: text arrives as it is, an integer as its decimal text (two
    different integers as two different strings), a [double] as
    [std::to_string] of it. *)
Theorem push_facade_into_string (v : push_arg) :
  exists str : string,
    push_through 7 c_string v 0 = Some (Ok (a_string str), 0) /\
    (forall z, integer_of v = Some z -> str = pretty z) /\
    (forall t, v = a_string t \/ v = a_charptr t -> str = t) /\
    (forall d, v = a_double d -> str = double_to_string d) /\
    (forall f, v = a_float f -> str = double_to_string (float_to_double f)) /\
    (forall z z' (w : push_arg) str',
       integer_of v = Some z -> integer_of w = Some z' ->
       push_through 7 c_string w 0 = Some (Ok (a_string str'), 0) ->
       str = str' -> z = z').
Proof.
  assert (forall (w : push_arg) z,
            integer_of w = Some z ->
            push_through 7 c_string w 0 = Some (Ok (a_string (pretty z)), 0))
    as Hint.
  { intros w z Hw. destruct w; cbn in Hw; try discriminate;
      injection Hw as ->; reflexivity. }
  destruct v; eexists; (split; [cbn; reflexivity|]);
    repeat split; try (intros; cbn in *; congruence);
    try (intros t [Ht|Ht]; congruence).
  all: intros z0 z' w str' Hz Hw Hrun Heq; cbn in Hz; injection Hz as <-;
    rewrite (Hint w z' Hw) in Hrun; injection Hrun as <-;
    apply (inj pretty) in Heq; exact Heq.
Qed.

End FacadeFacts.

(** * Worked instances

    The element type is [Z]; the states are those of short runs from the
    empty heap. *)

Example worked_stream_run :
  run (s <- Object_new 4 ;; push_all s [1; 2; 3; 4])
  = (Ok (stream_of 4 4 [4; 3; 2; 1]), heap_with_marker (to_size_t (-1))).
Proof. vm_compute. reflexivity. Qed.

Example worked_partial_run :
  run (s <- Object_new 5 ;; push_all s [1; 2; 3])
  = (Ok (stream_of 3 5 [3; 2; 1; 0; 0]), heap_with_marker (to_size_t (-1))).
Proof. vm_compute. reflexivity. Qed.

Example worked_marker_run :
  run (s <- Object_new 4 ;; s <- push_all s [1; 2; 3; 4] ;;
       _ <- operator_subscript s 3 ;; ret s)
  = (Ok (stream_of 4 4 [4; 3; 2; 1]), heap_with_marker 2).
Proof. vm_compute. reflexivity. Qed.

Lemma stream_inv_full : stream_inv (stream_of 4 4 [4; 3; 2; 1]).
Proof.
  unfold stream_inv, INT_MAX; cbn. repeat split; try lia.
  intros i x Hi Hx.
  do 4 (destruct i as [|i]; [lia|]). discriminate.
Qed.

Lemma stream_inv_partial : stream_inv (stream_of 3 5 [3; 2; 1; 0; 0]).
Proof.
  unfold stream_inv, INT_MAX; cbn. repeat split; try lia.
  intros i x Hi Hx.
  do 3 (destruct i as [|i]; [lia|]).
  do 2 (destruct i as [|i];
        [cbn in Hx; injection Hx as <-; reflexivity|]).
  discriminate.
Qed.

Lemma stream_inv_empty : stream_inv (stream_of 0 4 [0; 0; 0; 0]).
Proof.
  unfold stream_inv, INT_MAX; cbn. repeat split; try lia.
  intros i x Hi Hx.
  do 4 (destruct i as [|i];
        [cbn in Hx; injection Hx as <-; reflexivity|]).
  discriminate.
Qed.

Lemma marker_ok_worked (s : Object Z) m :
  _mrkCount s = 2%positive -> 0 <= m <= SIZE_MAX ->
  marker_ok s (heap_with_marker m).
Proof. intros Hk Hm. exists m. rewrite Hk. split; [reflexivity|exact Hm]. Qed.

(** ** C1 *)

(** C1 on a full stream of capacity 4 whose marker is unset. *)
Lemma copy_using_atomic_marker_unset_witness :
  copy_using_atomic_marker (stream_of 4 4 [4; 3; 2; 1]) (Some [0; 0; 0; 0])
      4 0 (heap_with_marker (to_size_t (-1)))
  = copy (stream_of 4 4 [4; 3; 2; 1]) (Some [0; 0; 0; 0]) 4 (-1) 0
      (heap_with_marker (to_size_t (-1))) /\
  fst (copy_using_atomic_marker (stream_of 4 4 [4; 3; 2; 1])
         (Some [0; 0; 0; 0]) 4 0 (heap_with_marker (to_size_t (-1))))
  <> Throw unset_marker.
Proof.
  apply (copy_using_atomic_marker_unset (stream_of 4 4 [4; 3; 2; 1])).
  reflexivity.
Defined.

(** Four pushes into a stream of capacity 4, no read: the marker was never
    set, and [copy_using_atomic_marker(dest, 4, 0)] returns with the whole
    window in [dest]. *)
Example copy_using_atomic_marker_unset_copies_all :
  fst (run (s <- Object_new 4 ;; s <- push_all s [1; 2; 3; 4] ;;
            copy_using_atomic_marker s (Some [0; 0; 0; 0]) 4 0))
  = Ok [4; 3; 2; 1].
Proof. vm_compute. reflexivity. Qed.

(** ** C2 *)

(** C2 on a new stream of capacity 3. *)
Lemma _push_marker_unset_stays_witness :
  exists s',
    _push (stream_of 0 3 [0; 0; 0]) 7 (heap_with_marker (to_size_t (-1)))
    = (Ok s', heap_with_marker (to_size_t (-1))) /\
    marker s' (heap_with_marker (to_size_t (-1))) = Some (to_size_t (-1)).
Proof.
  apply (_push_marker_unset_stays (stream_of 0 3 [0; 0; 0]) 7).
  reflexivity.
Defined.

(** The first push into a new stream: the marker is still
    [size_t(-1) = 2^64 - 1], not 0. *)
Example first_push_leaves_marker_unset :
  marker_after (s <- Object_new 3 ;; _push s 7) = Some (2 ^ 64 - 1).
Proof. vm_compute. reflexivity. Qed.

(** From a valid marker the push does advance it, up to [B - 1]. *)
Example push_advances_valid_marker :
  marker_after (s <- Object_new 3 ;; s <- push_all s [1; 2; 3] ;;
                _ <- operator_subscript s 1 ;; s <- _push s 4 ;;
                s <- _push s 5 ;; _push s 6) = Some 2.
Proof. vm_compute. reflexivity. Qed.

(** ** C3 *)

(** C3 at capacity 3 with four pushes into the empty heap. *)
Lemma operator_subscript_recent_witness :
  exists s h1 m1,
    (s0 <- Object_new 3 ;; push_all s0 [1; 2; 3; 4]) ∅ = (Ok s, h1) /\
    size s = Z.min (Z.of_nat (length [1; 2; 3; 4])) (Z.min 3 INT_MAX) /\
    h1 !! _mrkCount s = Some (SizeCell m1) /\
    forall i h' m, 0 <= i < size s ->
      h' !! _mrkCount s = Some (SizeCell m) ->
      exists v h2,
        reverse [1; 2; 3; 4] !! Z.to_nat i = Some v /\
        operator_subscript s i h' = (Ok (generic_type v), h2) /\
        h2 = <[_mrkCount s := SizeCell (to_size_t (i - 1))]> h' /\
        (i = 0 -> marker s h2 = Some (to_size_t (-1))) /\
        (0 < i -> marker s h2 = Some (i - 1)).
Proof.
  apply (operator_subscript_recent (SecTy := Z) (GenTy := Z) 3 [1; 2; 3; 4] ∅).
  unfold SIZE_MAX. lia.
Defined.

(** A read at index 0 after a read at index 2: the marker goes from 1
    back to unset. *)
Example operator_subscript_zero_resets_marker :
  marker_after (s <- Object_new 3 ;; s <- push_all s [1; 2; 3; 4] ;;
                _ <- operator_subscript s 2 ;; ret s) = Some 1 /\
  marker_after (s <- Object_new 3 ;; s <- push_all s [1; 2; 3; 4] ;;
                _ <- operator_subscript s 2 ;;
                _ <- operator_subscript s 0 ;; ret s)
  = Some (to_size_t (-1)).
Proof. split; vm_compute; reflexivity. Qed.

(** Boundary scenario 1 of the specification (eviction). *)
Example eviction_scenario :
  fst (run (s <- Object_new 3 ;; s <- push_all s [1; 2; 3; 4] ;;
            a <- operator_subscript s 0 ;; b <- operator_subscript s 1 ;;
            c <- operator_subscript s 2 ;; ret (a, b, c, size s)))
  = Ok (4, 3, 2, 3).
Proof. vm_compute. reflexivity. Qed.

(** ** C4 *)

(** C4 (what the code does): the copy constructor copies the pointer
    [_mrkCount], so a read through the copy moves the marker of the
    source: here from unset to 1. *)
Theorem Object_copy_shares_marker :
  marker_after (s <- Object_new 4 ;; s <- push_all s [1; 2; 3; 4] ;;
                c <- Object_copy s ;; ret s)
  = Some (to_size_t (-1)) /\
  marker_after (s <- Object_new 4 ;; s <- push_all s [1; 2; 3; 4] ;;
                c <- Object_copy s ;;
                _ <- operator_subscript c 2 ;; ret s)
  = Some 1.
Proof. split; vm_compute; reflexivity. Qed.

(** Destroying the copy and then the source deletes the shared marker
    cell twice. *)
Example Object_copy_double_delete :
  fst (run (s <- Object_new 4 ;; c <- Object_copy s ;;
            Object_destroy c ;;; Object_destroy s))
  = Undefined.
Proof. vm_compute. reflexivity. Qed.

(** ** C5 *)

(** C5 at [newB = 2]: a full stream of capacity 4, and a paired stream of
    capacity 1. *)
Lemma bound_size_resizes_witness :
  (exists s',
     bound_size (stream_of 4 4 [4; 3; 2; 1]) 2 (heap_with_marker 2)
     = (Ok (s', Z.min 2 INT_MAX), heap_with_marker 2) /\
     bound_size_get s' = Z.min 2 INT_MAX /\
     Z.of_nat (length (_myImplObj s')) = Z.min 2 INT_MAX /\
     _myImplObj s' =
       take (Z.to_nat (Z.min 2 INT_MAX)) [4; 3; 2; 1]
       ++ replicate (Z.to_nat (Z.min 2 INT_MAX) - length [4; 3; 2; 1]) 0 /\
     size s' = (if Z.min 2 INT_MAX <? 4 then Z.min 2 INT_MAX else 4) /\
     marker s' (heap_with_marker 2)
     = marker (stream_of 4 4 [4; 3; 2; 1]) (heap_with_marker 2)) /\
  (exists ps' : PairedObject Z Z,
     bound_size_paired (paired_of (stream_of 1 1 [7]) [70]) 2
       (heap_with_marker 2)
     = (Ok (ps', Z.min 2 INT_MAX), heap_with_marker 2) /\
     bound_size (stream_of 1 1 [7]) 2 (heap_with_marker 2)
     = (Ok (_myBase ps', Z.min 2 INT_MAX), heap_with_marker 2) /\
     _myImplSecObj ps' =
       take (Z.to_nat (Z.min 2 INT_MAX)) [70]
       ++ replicate (Z.to_nat (Z.min 2 INT_MAX) - length [70]) 0 /\
     Z.of_nat (length (_myImplSecObj ps')) = Z.min 2 INT_MAX).
Proof.
  apply (bound_size_resizes (stream_of 4 4 [4; 3; 2; 1])
           (paired_of (stream_of 1 1 [7]) [70]) 2 (heap_with_marker 2)).
  unfold SIZE_MAX. lia.
Defined.

(** C5, refuted as stated: a full stream of capacity 4 whose marker is 2
    (after a read at index 3), resized to 0.  The code returns bound 0, an empty deque, and the
    marker still 2; the specification's words give bound 1, the newest
    element kept, and the marker clamped to 0. *)
Lemma bound_size_not_as_specified :
  bound_size (stream_of 4 4 [4; 3; 2; 1]) 0 (heap_with_marker 2)
  = (Ok (stream_of 0 0 [], 0), heap_with_marker 2) /\
  bound_size_spec (stream_of 4 4 [4; 3; 2; 1]) 0 (heap_with_marker 2)
  = (Ok (stream_of 1 1 [4], 1), heap_with_marker 0) /\
  bound_size (stream_of 4 4 [4; 3; 2; 1]) 0 (heap_with_marker 2)
  <> bound_size_spec (stream_of 4 4 [4; 3; 2; 1]) 0 (heap_with_marker 2).
Proof.
  assert (bound_size (stream_of 4 4 [4; 3; 2; 1]) 0 (heap_with_marker 2)
          = (Ok (stream_of 0 0 [], 0), heap_with_marker 2)) as Hcode
    by (vm_compute; reflexivity).
  assert (bound_size_spec (stream_of 4 4 [4; 3; 2; 1]) 0 (heap_with_marker 2)
          = (Ok (stream_of 1 1 [4], 1), heap_with_marker 0)) as Hspec
    by (vm_compute; reflexivity).
  split; [exact Hcode|]. split; [exact Hspec|].
  rewrite Hcode, Hspec. intros Heq. injection Heq as Heq _. discriminate.
Qed.

(** Growing default-fills at the tail and keeps the count. *)
Example bound_size_grows :
  fst (run (s <- Object_new 2 ;; s <- push_all s [1; 2] ;;
            r <- bound_size s 4 ;; ret (_myImplObj (fst r), size (fst r), snd r)))
  = Ok ([2; 1; 0; 0], 2, 4).
Proof. vm_compute. reflexivity. Qed.

(** ** C6 *)

(** C6 on three pushed values in capacity 5, range [[0, 4]], a buffer of
    five elements. *)
Lemma copy_range_writes_witness :
  let k := Z.to_nat (Z.min 5 (Z.min (4 - 0 + 1) (3 - 0))) in
  exists dest' h',
    copy (stream_of 3 5 [3; 2; 1; 0; 0]) (Some [9; 9; 9; 9; 9]) 5 4 0
         (heap_with_marker 2) = (Ok dest', h') /\
    length dest' = length [9; 9; 9; 9; 9] /\
    (forall j, (j < k)%nat ->
               dest' !! j = [3; 2; 1; 0; 0] !! (Z.to_nat 0 + j)%nat) /\
    (forall j, (k <= j)%nat -> dest' !! j = [9; 9; 9; 9; 9] !! j) /\
    marker (stream_of 3 5 [3; 2; 1; 0; 0]) h' = Some (to_size_t (0 - 1)).
Proof.
  apply (copy_range_writes (stream_of 3 5 [3; 2; 1; 0; 0]) (heap_with_marker 2)
           [9; 9; 9; 9; 9] 5 4 0).
  - exact stream_inv_partial.
  - apply marker_ok_worked; [reflexivity|unfold SIZE_MAX; lia].
  - lia.
  - lia.
  - cbn. lia.
  - reflexivity.
  - unfold PTRDIFF_MAX. lia.
Defined.

(** Boundary scenario 2 of the specification: three pushes into capacity
    5, then [copy(dest, 5, end = -1, beg = 0)]. *)
Example copy_truncates_to_count :
  run (s <- Object_new 5 ;; s <- push_all s [1; 2; 3] ;;
       copy s (Some [9; 9; 9; 9; 9]) 5 (-1) 0)
  = (Ok [3; 2; 1; 9; 9], heap_with_marker (to_size_t (-1))).
Proof. vm_compute. reflexivity. Qed.

(** ** C7 *)


(** Boundary scenario 4 of the specification, with time stamps 1 and 2. *)
Example paired_scenario :
  fst (run (s <- PairedObject_new 2 ;;
            s <- push_all_paired s [(10, 1); (20, 2)] ;;
            a <- both_paired s 0 ;; b <- both_paired s 1 ;;
            v <- secondary_vector_paired s (-1) 0 ;; ret (a, b, v)))
  = Ok ((20, 2), (10, 1), [2; 1]).
Proof. vm_compute. reflexivity. Qed.

(** ** C8 *)

(** C8 on three pushed values in capacity 5 and the range [[0, 3]]: three
    elements, not four. *)
Lemma secondary_vector_length_witness :
  secondary_vector (SecTy := Z) (stream_of 3 5 [3; 2; 1; 0; 0]) 3 0
    (heap_with_marker 2)
  = (Ok (replicate (Z.to_nat (Z.min (3 - 0 + 1) 3)) (value_init : Z)),
     heap_with_marker 2).
Proof.
  apply (secondary_vector_length (stream_of 3 5 [3; 2; 1; 0; 0])
           (heap_with_marker 2) 3 0).
  - exact stream_inv_partial.
  - lia.
  - cbn. lia.
Defined.

(** C8, refuted as stated: a new stream of capacity 4 and the range
    [[0, 3]]: the requested range has 4 elements, the vector the code
    returns has none. *)
Lemma secondary_vector_shorter_than_range :
  secondary_vector (SecTy := Z) (stream_of 0 4 [0; 0; 0; 0]) 3 0
    (heap_with_marker (to_size_t (-1)))
  = (Ok [], heap_with_marker (to_size_t (-1))) /\
  secondary_vector_spec (SecTy := Z) 3 0 = [0; 0; 0; 0].
Proof. split; vm_compute; reflexivity. Qed.

(** ** C9 *)

(** C9 (what the code does): one push into capacity 4, then
    [copy(dest, 4, end = 2, beg = 2)].  Slot 2 was never pushed: the range
    path writes nothing, the single-element branch writes the filler of
    slot 2 to [dest[0]]. *)
Theorem copy_single_ignores_count :
  fst (run (s <- Object_new 4 ;; s <- _push s 7 ;;
            copy s (Some [9; 9; 9; 9]) 4 2 2))
  = Ok [0; 9; 9; 9] /\
  fst (run (s <- Object_new 4 ;; s <- _push s 7 ;;
            copy_range_path s (Some [9; 9; 9; 9]) 4 2 2))
  = Ok [9; 9; 9; 9].
Proof. split; vm_compute; reflexivity. Qed.

(** The single-element branch ignores the buffer length too: with
    [destLen = 0] the range path writes nothing, the branch writes
    [dest[0]] of a buffer that has no element. *)
Example copy_single_ignores_length :
  fst (run (s <- Object_new 4 ;; s <- _push s 7 ;; copy s (Some []) 0 0 0))
  = Undefined /\
  fst (run (s <- Object_new 4 ;; s <- _push s 7 ;;
            copy_range_path s (Some []) 0 0 0))
  = Ok [].
Proof. split; vm_compute; reflexivity. Qed.

(** ** C10 *)

(** C10 on a stream of capacity 4 that was never pushed to, and on a new
    stream of capacity 3 resized to 2. *)
Lemma operator_subscript_zero_total_witness :
  (exists x,
     [0; 0; 0; 0] !! 0%nat = Some x /\
     operator_subscript (stream_of 0 4 [0; 0; 0; 0]) 0 (heap_with_marker 2)
     = (Ok (generic_type x),
        <[2%positive := SizeCell (to_size_t (-1))]> (heap_with_marker 2)) /\
     marker (stream_of 0 4 [0; 0; 0; 0])
       (<[2%positive := SizeCell (to_size_t (-1))]> (heap_with_marker 2))
     = Some (to_size_t (-1)) /\
     (stream_inv (stream_of 0 4 [0; 0; 0; 0]) -> 0 = 0 -> x = value_init)) /\
  (exists (s1 s2 : Object Z) h1,
     Object_new 3 ∅ = (Ok s1, h1) /\
     bound_size s1 2 h1 = (Ok (s2, Z.min 2 INT_MAX), h1) /\
     size s1 = 0 /\ size s2 = 0 /\
     (1 <= 3 ->
      forall h' m, h' !! _mrkCount s1 = Some (SizeCell m) ->
        operator_subscript (GenTy := Z) s1 0 h' =
          (Ok (generic_type value_init),
           <[_mrkCount s1 := SizeCell (to_size_t (-1))]> h')) /\
     (forall h' m, h' !! _mrkCount s2 = Some (SizeCell m) ->
        operator_subscript (GenTy := Z) s2 0 h' =
          (Ok (generic_type value_init),
           <[_mrkCount s2 := SizeCell (to_size_t (-1))]> h'))).
Proof.
  apply (operator_subscript_zero_total (GenTy := Z)
           (stream_of 0 4 [0; 0; 0; 0]) (heap_with_marker 2) 3 2 ∅).
  - apply marker_ok_worked; [reflexivity|unfold SIZE_MAX; lia].
  - discriminate.
  - lia.
  - unfold SIZE_MAX. lia.
  - lia.
  - unfold SIZE_MAX. lia.
Defined.

(** C10, refuted as stated: [Object( 0 )] builds a stream of capacity 0
    that satisfies the invariant; its deque has no front element, and
    [operator[]( 0 )] on it is [front()] of an empty deque: no element is
    returned.  The same stream comes out of [bound_size( 0 )]. *)
Lemma operator_subscript_zero_capacity_zero :
  run (Object_new 0)
  = (Ok (stream_of 0 0 []), heap_with_marker (to_size_t (-1))) /\
  stream_inv (stream_of 0 0 []) /\
  marker_ok (stream_of 0 0 []) (heap_with_marker (to_size_t (-1))) /\
  fst (operator_subscript (GenTy := Z) (stream_of 0 0 []) 0
         (heap_with_marker (to_size_t (-1)))) = Undefined /\
  fst (run (s <- Object_new 4 ;; s <- push_all s [1; 2] ;;
            r <- bound_size s 0 ;;
            operator_subscript (GenTy := Z) (fst r) 0)) = Undefined.
Proof.
  split; [vm_compute; reflexivity|].
  split.
  { split; [reflexivity|]. split; [cbn; lia|].
    split; [cbn; unfold INT_MAX; lia|].
    intros i x _ Hx. destruct i; discriminate Hx. }
  split.
  { apply marker_ok_worked; [reflexivity|apply to_size_t_range]. }
  split; vm_compute; reflexivity.
Qed.

(** A new stream, never pushed to: index 0 reads the filler. *)
Example operator_subscript_zero_on_empty :
  fst (run (s <- Object_new 4 ;; operator_subscript s 0)) = Ok 0.
Proof. vm_compute. reflexivity. Qed.

(** A stream of capacity 0 (the constructor has no lower clamp) has no
    slot 0: [front()] of its empty deque has no defined behaviour. *)
Example operator_subscript_zero_no_slot :
  fst (run (s <- Object_new 0 ;; operator_subscript s 0)) = Undefined.
Proof. vm_compute. reflexivity. Qed.

(** ** Instances of the further laws *)

(** X1 from marker 2 at capacity 4. *)
Lemma _push_marker_valid_witness :
  exists s' h',
    _push (stream_of 4 4 [4; 3; 2; 1]) 5 (heap_with_marker 2) = (Ok s', h') /\
    marker s' h' = Some (Z.min (2 + 1) (4 - 1)).
Proof.
  apply (_push_marker_valid (stream_of 4 4 [4; 3; 2; 1]) 5
           (heap_with_marker 2) 2).
  - reflexivity.
  - cbn. unfold SIZE_MAX. lia.
  - cbn. lia.
Defined.

(** X2 at index 1 of three pushed values. *)
Lemma copy_single_agrees_witness :
  copy (stream_of 3 5 [3; 2; 1; 0; 0]) (Some [9; 9]) 2 1 1 (heap_with_marker 2)
  = copy_range_path (stream_of 3 5 [3; 2; 1; 0; 0]) (Some [9; 9]) 2 1 1
      (heap_with_marker 2).
Proof.
  apply (copy_single_agrees (stream_of 3 5 [3; 2; 1; 0; 0]) (heap_with_marker 2)
           [9; 9] 2 1).
  - exact stream_inv_partial.
  - apply marker_ok_worked; [reflexivity|unfold SIZE_MAX; lia].
  - cbn. lia.
  - reflexivity.
  - unfold PTRDIFF_MAX. lia.
Defined.

(** X4 at capacity 3 with five pushes. *)
Lemma size_after_pushes_witness :
  exists (s : Object Z) h1,
    (s0 <- Object_new 3 ;; push_all s0 [1; 2; 3; 4; 5]) ∅ = (Ok s, h1) /\
    bound_size_get s = Z.min 3 INT_MAX /\
    size s = Z.min (Z.of_nat (length [1; 2; 3; 4; 5])) (bound_size_get s) /\
    Z.of_nat (length (_myImplObj s)) = bound_size_get s.
Proof.
  apply (size_after_pushes (SecTy := Z) 3 [1; 2; 3; 4; 5] ∅).
  unfold SIZE_MAX. lia.
Defined.

(** X5 at capacity 5. *)
Lemma copy_negative_end_witness :
  copy (stream_of 3 5 [3; 2; 1; 0; 0]) (Some [9; 9; 9; 9; 9]) 5 (-1) 0
    (heap_with_marker 2)
  = copy (stream_of 3 5 [3; 2; 1; 0; 0]) (Some [9; 9; 9; 9; 9]) 5 (5 - 1) 0
      (heap_with_marker 2).
Proof.
  apply (copy_negative_end (stream_of 3 5 [3; 2; 1; 0; 0])
           (Some [9; 9; 9; 9; 9]) 5 (heap_with_marker 2)).
  - exact stream_inv_partial.
  - cbn. lia.
Defined.

(** X6: a fourth push into capacity 5. *)
Lemma _push_inv_witness :
  stream_inv (stream_of 4 5 [7; 3; 2; 1; 0]).
Proof.
  apply (_push_inv (stream_of 3 5 [3; 2; 1; 0; 0]) 7 (heap_with_marker 2)
           (stream_of 4 5 [7; 3; 2; 1; 0]) (heap_with_marker 3)).
  - exact stream_inv_partial.
  - vm_compute. reflexivity.
Defined.

(** X7 on three pushed values in capacity 5 and the range [[1, 4]]. *)
Lemma vector_range_witness :
  let k := Z.to_nat (Z.min (4 + 1) 3 - 1) in
  exists (v : list Z) h',
    vector (stream_of 3 5 [3; 2; 1; 0; 0]) 4 1 (heap_with_marker 2)
    = (Ok v, h') /\
    length v = k /\
    (forall j, (j < k)%nat ->
               v !! j = generic_type <$>
                          [3; 2; 1; 0; 0] !! (Z.to_nat 1 + j)%nat) /\
    marker (stream_of 3 5 [3; 2; 1; 0; 0]) h' = Some (to_size_t (1 - 1)).
Proof.
  apply (vector_range (stream_of 3 5 [3; 2; 1; 0; 0]) (heap_with_marker 2)
           4 1).
  - exact stream_inv_partial.
  - apply marker_ok_worked; [reflexivity|unfold SIZE_MAX; lia].
  - lia.
  - cbn. lia.
Defined.

(** X8 on the same stream, the range [[0, 4]] and a buffer of five. *)
Lemma vector_matches_copy_witness :
  exists dest' (v : list Z) h',
    copy (stream_of 3 5 [3; 2; 1; 0; 0]) (Some [9; 9; 9; 9; 9]) 5 4 0
         (heap_with_marker 2) = (Ok dest', h') /\
    vector (stream_of 3 5 [3; 2; 1; 0; 0]) 4 0 (heap_with_marker 2)
    = (Ok v, h') /\
    Z.of_nat (length v) = Z.max 0 (Z.min (4 + 1) 3 - 0) /\
    v = generic_type <$> take (length v) dest'.
Proof.
  apply (vector_matches_copy (stream_of 3 5 [3; 2; 1; 0; 0])
           (heap_with_marker 2) [9; 9; 9; 9; 9] 5 4 0).
  - exact stream_inv_partial.
  - apply marker_ok_worked; [reflexivity|unfold SIZE_MAX; lia].
  - lia.
  - lia.
  - cbn. lia.
  - reflexivity.
  - lia.
  - unfold PTRDIFF_MAX. lia.
Defined.

(** X9 at index -1 of a full stream of capacity 4: the oldest element. *)
Lemma operator_subscript_negative_witness :
  exists x,
    [4; 3; 2; 1] !! Z.to_nat (4 + -1) = Some x /\
    operator_subscript (GenTy := Z) (stream_of 4 4 [4; 3; 2; 1]) (-1)
      (heap_with_marker 0)
    = (Ok (generic_type x),
       <[2%positive := SizeCell (to_size_t (4 + -1 - 1))]>
         (heap_with_marker 0)).
Proof.
  apply (operator_subscript_negative (GenTy := Z) (stream_of 4 4 [4; 3; 2; 1])
           (heap_with_marker 0) (-1)).
  - exact stream_inv_full.
  - apply marker_ok_worked; [reflexivity|unfold SIZE_MAX; lia].
  - cbn. lia.
  - lia.
Defined.

(** X11 at [end = 7] in capacity 5: [out_of_range]. *)
Lemma copy_error_kinds_witness :
  copy (stream_of 3 5 [3; 2; 1; 0; 0]) (Some [9; 9]) 2 7 0 (heap_with_marker 2)
  = (Throw (out_of_range 5 0 7), heap_with_marker 2).
Proof.
  assert (marker_ok (stream_of 3 5 [3; 2; 1; 0; 0]) (heap_with_marker 2))
    as Hmk by (apply marker_ok_worked; [reflexivity|unfold SIZE_MAX; lia]).
  assert (- 2 ^ 31 <= 7 <= INT_MAX) as He by (unfold INT_MAX; lia).
  assert (- 2 ^ 31 <= 0 <= INT_MAX) as Hb by (unfold INT_MAX; lia).
  exact (copy_error_kinds (stream_of 3 5 [3; 2; 1; 0; 0]) (heap_with_marker 2)
           [9; 9] 2 7 0 stream_inv_partial Hmk He Hb).
Defined.

(** X12 at capacity 3 with one push. *)
Lemma empty_iff_no_capacity_witness :
  exists (s : Object Z) h1,
    (s0 <- Object_new 3 ;; push_all s0 [1]) ∅ = (Ok s, h1) /\
    (empty s = true <-> 3 = 0).
Proof.
  apply (empty_iff_no_capacity (SecTy := Z) 3 [1] ∅).
  unfold SIZE_MAX. lia.
Defined.

(** X13 with two pushes into a new stream of capacity 3. *)
Lemma push_all_marker_unset_witness :
  exists s',
    push_all (SecTy := Z) (stream_of 0 3 [0; 0; 0]) [1; 2]
      (heap_with_marker (to_size_t (-1)))
    = (Ok s', heap_with_marker (to_size_t (-1))) /\
    marker s' (heap_with_marker (to_size_t (-1))) = Some (to_size_t (-1)).
Proof.
  apply (push_all_marker_unset (SecTy := Z) [1; 2] (stream_of 0 3 [0; 0; 0])).
  reflexivity.
Defined.

(** X14: boundary scenario 3 of the specification, with one more push. *)
Lemma marker_copy_after_read_and_pushes_witness :
  exists (g : Z) h1 s' h2,
    operator_subscript (stream_of 4 4 [4; 3; 2; 1]) 2
      (heap_with_marker (to_size_t (-1))) = (Ok g, h1) /\
    push_all (SecTy := Z) (stream_of 4 4 [4; 3; 2; 1]) [5] h1 = (Ok s', h2) /\
    marker s' h2 = Some (Z.min (2 - 1 + Z.of_nat (length [5])) (4 - 1)) /\
    copy_using_atomic_marker s' (Some [9; 9; 9; 9]) 4 0 h2 =
      copy s' (Some [9; 9; 9; 9]) 4
           (Z.min (2 - 1 + Z.of_nat (length [5])) (4 - 1)) 0 h2.
Proof.
  apply (marker_copy_after_read_and_pushes (SecTy := Z) (GenTy := Z)
           (stream_of 4 4 [4; 3; 2; 1]) (heap_with_marker (to_size_t (-1)))
           2 [5] (Some [9; 9; 9; 9]) 4 0).
  - exact stream_inv_full.
  - apply marker_ok_worked; [reflexivity|vm_compute; split; discriminate].
  - lia.
  - cbn. lia.
Defined.

(** X15: marker 2, resize to 1. *)
Lemma shrink_below_marker_throws_witness :
  exists s',
    bound_size (stream_of 4 4 [4; 3; 2; 1]) 1 (heap_with_marker 2)
    = (Ok (s', 1), heap_with_marker 2) /\
    copy_using_atomic_marker s' (Some [9]) 1 0 (heap_with_marker 2)
    = (Throw (out_of_range 1 0 2), heap_with_marker 2).
Proof.
  apply (shrink_below_marker_throws (stream_of 4 4 [4; 3; 2; 1])
           (heap_with_marker 2) 2 1 [9] 1 0).
  - exact stream_inv_full.
  - reflexivity.
  - lia.
  - lia.
  - unfold INT_MAX. lia.
  - lia.
Defined.

(** X16: capacity 4 down to 2 and back to 4. *)
Lemma bound_size_shrink_grow_witness :
  exists s1 s2,
    bound_size (stream_of 4 4 [4; 3; 2; 1]) 2 (heap_with_marker 2)
    = (Ok (s1, 2), heap_with_marker 2) /\
    bound_size s1 4 (heap_with_marker 2) = (Ok (s2, 4), heap_with_marker 2) /\
    _myImplObj s2 = take (Z.to_nat 2) [4; 3; 2; 1]
                    ++ replicate (Z.to_nat (4 - 2)) 0 /\
    size s2 = Z.min 4 2 /\
    bound_size_get s2 = 4.
Proof.
  apply (bound_size_shrink_grow (stream_of 4 4 [4; 3; 2; 1])
           (heap_with_marker 2) 2).
  - exact stream_inv_full.
  - lia.
  - cbn. lia.
Defined.

Lemma paired_inv_partial : paired_inv paired_partial.
Proof. split; [exact stream_inv_partial|reflexivity]. Qed.

(** X17 on three pushed pairs in capacity 5, the range [[0, 4]], two
    buffers of four. *)
Lemma copy_paired_lock_step_witness :
  copy_paired paired_partial (Some [9; 9; 9; 9]) 4 4 0 (Some [8; 8; 8; 8])
    (heap_with_marker 2)
  = (Ok ([3; 2; 1; 9], Some [30; 20; 10; 8]),
     heap_with_marker (to_size_t (-1))).
Proof.
  rewrite (copy_paired_lock_step paired_partial (heap_with_marker 2)
             [9; 9; 9; 9] [8; 8; 8; 8] 4 4 0).
  - vm_compute. reflexivity.
  - exact paired_inv_partial.
  - apply marker_ok_worked; [reflexivity|unfold SIZE_MAX; lia].
  - lia.
  - lia.
  - cbn. lia.
  - reflexivity.
  - reflexivity.
  - unfold PTRDIFF_MAX. lia.
Defined.

(** X18 at index 0 of a paired stream of capacity 0: the index check
    throws. *)
Lemma secondary_reads_witness :
  secondary (paired_of (stream_of 0 0 []) []) 0 (heap_with_marker 2)
  = (Throw (out_of_range 0 0 0), heap_with_marker 2).
Proof.
  apply (secondary_reads (paired_of (stream_of 0 0 []) [])
           (heap_with_marker 2) 0).
  - split; [|reflexivity].
    split; [reflexivity|]. split; [cbn; lia|].
    split; [cbn; unfold INT_MAX; lia|].
    intros i x _ Hx. destruct i; discriminate Hx.
  - apply marker_ok_worked; [reflexivity|unfold SIZE_MAX; lia].
  - lia.
  - unfold INT_MAX. lia.
Defined.

(** [secondary] on the paired stream above: index 1, index 0, the last
    position through a negative index, and an index past the capacity. *)
Example secondary_by_index :
  secondary paired_partial 1 (heap_with_marker 2)
  = (Ok 20, heap_with_marker 0) /\
  secondary paired_partial 0 (heap_with_marker 2)
  = (Ok 30, heap_with_marker (to_size_t (-1))) /\
  secondary paired_partial (-1) (heap_with_marker 2)
  = (Ok 0, heap_with_marker 3) /\
  secondary paired_partial 5 (heap_with_marker 2)
  = (Throw (out_of_range 5 0 5), heap_with_marker 2).
Proof. repeat split; vm_compute; reflexivity. Qed.

(** X19 on the range [[1, 4]]. *)
Lemma secondary_vector_paired_range_witness :
  secondary_vector_paired paired_partial 4 1 (heap_with_marker 2)
  = (Ok [20; 10], heap_with_marker 0).
Proof.
  rewrite (secondary_vector_paired_range paired_partial (heap_with_marker 2)
             4 1).
  - vm_compute. reflexivity.
  - exact paired_inv_partial.
  - apply marker_ok_worked; [reflexivity|unfold SIZE_MAX; lia].
  - lia.
  - cbn. lia.
Defined.

(** X20 on the same paired stream. *)
Lemma paired_inv_kept_witness :
  (forall x t h (s' : PairedObject Z Z) h',
     _push_paired paired_partial x t h = (Ok s', h') -> paired_inv s') /\
  (forall n h r h',
     0 <= n -> bound_size_paired paired_partial n h = (Ok r, h') ->
     paired_inv (fst r)).
Proof.
  apply (paired_inv_kept paired_partial). exact paired_inv_partial.
Defined.

(** X21 at capacity 3 in the empty heap. *)
Lemma Object_new_establishes_witness :
  exists (s : Object Z) h',
    Object_new 3 ∅ = (Ok s, h') /\
    stream_inv s /\ size s = 0 /\ bound_size_get s = Z.min 3 INT_MAX /\
    marker s h' = Some (to_size_t (-1)) /\
    (∅ : gmap loc cell) !! _mtx s = None /\
    (∅ : gmap loc cell) !! _mrkCount s = None /\
    _mtx s <> _mrkCount s /\
    forall p, p <> _mtx s -> p <> _mrkCount s ->
              h' !! p = (∅ : gmap loc cell) !! p.
Proof.
  apply (Object_new_establishes 3 ∅).
  - lia.
  - unfold SIZE_MAX. lia.
Defined.

(** X22: a full stream of capacity 4 resized to 2. *)
Lemma bound_size_keeps_inv_witness :
  exists s',
    bound_size (stream_of 4 4 [4; 3; 2; 1]) 2 (heap_with_marker 2)
    = (Ok (s', Z.min 2 INT_MAX), heap_with_marker 2) /\ stream_inv s'.
Proof.
  apply (bound_size_keeps_inv (stream_of 4 4 [4; 3; 2; 1]) 2
           (heap_with_marker 2)).
  - exact stream_inv_full.
  - lia.
  - unfold SIZE_MAX. lia.
Defined.

(** X23 on three pushed values 3, 2, 1 in capacity 5, three rows and
    [strSz = 2]. *)
Lemma copy_strings_writes_witness :
  let n := Z.to_nat (Z.min 3 (Z.min (4 + 1) 3 - 0)) in
  exists rows' h',
    copy_strings (GenTy := Z) (stream_of 3 5 [3; 2; 1; 0; 0])
      (Some [""; ""; ""]) 3 2 4 0 (heap_with_marker 2) = (Ok rows', h') /\
    length rows' = length [""; ""; ""] /\
    (forall j x, (j < n)%nat ->
                 [3; 2; 1; 0; 0] !! (Z.to_nat 0 + j)%nat = Some x ->
                 rows' !! j = Some (row_of (GenTy := Z) 2 x) /\
                 Z.of_nat (String.length (row_of (GenTy := Z) 2 x)) <= 2 - 1 /\
                 forall k, String.get k (row_of (GenTy := Z) 2 x)
                           <> Some Ascii.zero) /\
    (forall j, (n <= j)%nat -> rows' !! j = [""; ""; ""] !! j) /\
    marker (stream_of 3 5 [3; 2; 1; 0; 0]) h' = Some (to_size_t (0 - 1)).
Proof.
  apply (copy_strings_writes (GenTy := Z) (stream_of 3 5 [3; 2; 1; 0; 0])
           (heap_with_marker 2) [""; ""; ""] 3 2 4 0).
  - exact stream_inv_partial.
  - apply marker_ok_worked; [reflexivity|unfold SIZE_MAX; lia].
  - lia.
  - cbn. lia.
  - reflexivity.
  - lia.
  - unfold SIZE_MAX. lia.
Defined.

(** Values of two digits in rows of [strSz = 2]: one character is kept. *)
Example copy_strings_truncates :
  fst (run (s <- Object_new 3 ;; s <- push_all s [15; 27] ;;
            copy_strings (GenTy := Z) s (Some ["xx"; "xx"; "xx"]) 3 2 (-1) 0))
  = Ok ["2"; "1"; "xx"].
Proof. vm_compute. reflexivity. Qed.

(** A generic string that holds a NUL is copied up to it. *)
Example strncpy_s_stops_at_NUL :
  strncpy_s (Some "xxxx") 8
    ("ab" +:+ String Ascii.zero "cd") 5 = Ok "ab" /\
  strncpy_s (Some "xxxx") 8 "abcd" 5 = Ok "abcd" /\
  strncpy_s (Some "xxxx") 3 "abcd" 5 = Undefined.
Proof. repeat split; vm_compute; reflexivity. Qed.

(** X25: a [short] pushed into a stream of [long long]. *)
Lemma push_facade_numeric_witness :
  exists v' : push_arg (F := unit) (D := unit),
    push_facade (fun f => f) (fun _ => "") 7 c_longlong (a_short 5) 0
    = Some (Ok v', 0) /\
    type_of v' = c_longlong /\
    integer_of v' = integer_of (a_short (F := unit) (D := unit) 5) /\
    (type_of (a_short (F := unit) (D := unit) 5) = c_longlong ->
     v' = a_short 5).
Proof.
  exact (push_facade_numeric (fun f => f) (fun _ => "") c_longlong (a_short 5)
           eq_refl).
Defined.

(** A [char*] pushed into a stream of [long long], and an [unsigned int]
    pushed into a stream of [int]: [type_error], [_count1] back at 0. *)
Example push_facade_rejects :
  push_facade (F := unit) (D := unit) (fun f => f) (fun _ => "") 7
    c_longlong (a_charptr "12") 0 = Some (Throw type_error, 0) /\
  push_facade (F := unit) (D := unit) (fun f => f) (fun _ => "") 7
    c_int (a_uint 12) 0 = Some (Throw type_error, 0).
Proof. split; reflexivity. Qed.

(** An [int] pushed into a stream of strings arrives as its decimal
    text. *)
Example push_facade_number_as_text :
  push_facade (F := unit) (D := unit) (fun f => f) (fun _ => "") 7
    c_string (a_int (-5)) 0 = Some (Ok (a_string "-5"), 0).
Proof. vm_compute. reflexivity. Qed.

(** Boundary scenario 6 of the specification, sequentially: a snapshot of
    capacity 3 after four pushes is the three newest values, newest
    first. *)
Example vector_after_eviction :
  fst (run (s <- Object_new 3 ;; s <- push_all s [1; 2; 3; 4] ;;
            vector (GenTy := Z) s (-1) 0))
  = Ok [4; 3; 2].
Proof. vm_compute. reflexivity. Qed.
